(** * A multi-backend caching library: LRU + TTL engine and two-tier cache

    Shallow embedding of the cache engines of the repository:

    - [inmemory_cache_restapi.go]: the bounded in-memory cache with LRU
      eviction and per-entry expiry ([Module LRU]);
    - the unified cache program (an unbounded in-memory map in front of a
      Redis client) ([Module Tiered]).

    The HTTP handlers only decode a request and call one operation; they
    are not modelled.

    Conventions of the embedding.

    - [time.Time] instants and [time.Duration]s are integers (nanoseconds);
      [t.Add(d)] is [t + d], [t.After(u)] is [u < t], [t.Before(u)] is
      [t < u].  Every operation that reads [time.Now()] takes the instant
      it reads as the extra argument [now].
    - A Go [interface{}] payload is a value of type [any].
    - A Go [error] result is [option error_value]; [None] is [nil].
    - Each exported operation of the LRU cache runs under the cache's mutex
      from entry to exit, so it is modelled as one atomic state transition.
      Log output ([fmt.Printf], [log.Printf]) is not modelled. *)

From Stdlib Require Import ZArith.
From stdpp Require Import base option list gmap strings fin_maps.

Local Open Scope Z_scope.

(** ** Shared Go-level data *)

(** The dynamic payloads that reach the caches: [nil], booleans, integers,
    strings, and [AOther n] for any other dynamic value (floats, slices,
    maps, ...), of which only the identity matters. *)
Inductive any : Type :=
  | ANil
  | ABool (b : bool)
  | AInt (n : Z)
  | AStr (s : string)
  | AOther (n : nat).

Inductive error_value : Type :=
  | ErrMsg (msg : string)   (* fmt.Errorf(msg), or a client error *)
  | RedisNilErr.            (* the sentinel redis.Nil *)

Abbreviation error := (option error_value).

(** [value != nil] *)
Definition is_nil (v : any) : bool :=
  match v with ANil => true | _ => false end.

(** ** The LRU + TTL engine ([inmemory_cache_restapi.go]) *)

Module LRU.

(** A [*list.Element]; each element owns the [*entry] stored in its
    [Value] field, so one address stands for both. *)
Abbreviation loc := nat.

Record entry : Type := Entry {
  key : string;
  value : any;
  ttl : Z
}.

(** [cache] maps a key to the address of its list element, [lruList] is
    the sequence of element addresses from front to back, and [heap]
    holds the entry behind each address. *)
Record InMemoryCache : Type := Cache {
  maxSize : Z;
  cache : gmap string loc;
  lruList : list loc;
  heap : gmap loc entry
}.

(** *** container/list *)

(** [l.MoveToFront(e)]: nothing happens when [e] is not an element of
    [l]. *)
Definition MoveToFront (l : list loc) (e : loc) : list loc :=
  if decide (e ∈ l) then e :: filter (λ x, x ≠ e) l else l.

Definition PushFront (l : list loc) (e : loc) : list loc := e :: l.

Definition Back (l : list loc) : option loc := last l.

(** [l.Remove(e)]: nothing happens when [e] is not an element of [l]. *)
Definition Remove (l : list loc) (e : loc) : list loc :=
  filter (λ x, x ≠ e) l.

(** *** The cache operations

    An operation returns [None] when it would dereference an address
    that holds no entry (a panic in Go); the well-formedness invariant
    [wf] below excludes that.  Entries of removed elements stay in [heap]
    (garbage is not collected); [fresh] picks an address not in use. *)

Definition NewInMemoryCache (maxSize : Z) : InMemoryCache :=
  {| maxSize := maxSize; cache := ∅; lruList := []; heap := ∅ |}.

Definition removeElement (c : InMemoryCache) (element : loc)
  : option InMemoryCache :=
  e ← heap c !! element;
  Some {| maxSize := maxSize c;
          cache := delete (key e) (cache c);
          lruList := Remove (lruList c) element;
          heap := heap c |}.

Definition evict (c : InMemoryCache) : option InMemoryCache :=
  match Back (lruList c) with
  | Some element => removeElement c element
  | None => Some c
  end.

Definition key_not_found : error := Some (ErrMsg "key not found").

(** [Set] (the name is reserved in Rocq, hence the underscore). *)
Definition Set_ (c : InMemoryCache) (k : string) (v : any) (d : Z) (now : Z)
  : option (InMemoryCache * error) :=
  match cache c !! k with
  | Some element =>
      e ← heap c !! element;
      Some ({| maxSize := maxSize c;
               cache := cache c;
               lruList := MoveToFront (lruList c) element;
               heap := <[element := {| key := key e; value := v;
                                       ttl := now + d |}]> (heap c) |},
            None)
  | None =>
      c1 ← (if bool_decide (maxSize c ≤ Z.of_nat (size (cache c)))
            then evict c else Some c);
      let element := fresh (dom (heap c1)) in
      Some ({| maxSize := maxSize c1;
               cache := <[k := element]> (cache c1);
               lruList := PushFront (lruList c1) element;
               heap := <[element := {| key := k; value := v;
                                       ttl := now + d |}]> (heap c1) |},
            None)
  end.

Definition Get (c : InMemoryCache) (k : string) (now : Z)
  : option (InMemoryCache * (any * error)) :=
  match cache c !! k with
  | Some element =>
      e ← heap c !! element;
      if bool_decide (now < ttl e) then
        Some ({| maxSize := maxSize c;
                 cache := cache c;
                 lruList := MoveToFront (lruList c) element;
                 heap := heap c |},
              (value e, None))
      else
        c' ← removeElement c element;
        Some (c', (ANil, key_not_found))
  | None => Some (c, (ANil, key_not_found))
  end.

Definition Delete (c : InMemoryCache) (k : string)
  : option (InMemoryCache * error) :=
  match cache c !! k with
  | Some element =>
      c' ← removeElement c element;
      Some (c', None)
  | None => Some (c, key_not_found)
  end.

(** *** Sequences of operations *)

Inductive op : Type :=
  | OpSet (k : string) (v : any) (d : Z)
  | OpGet (k : string)
  | OpDelete (k : string).

(** One request, served at instant [now]. *)
Definition step (c : InMemoryCache) (o : op) (now : Z)
  : option InMemoryCache :=
  match o with
  | OpSet k v d => fst <$> Set_ c k v d now
  | OpGet k => fst <$> Get c k now
  | OpDelete k => fst <$> Delete c k
  end.

Fixpoint run (c : InMemoryCache) (ops : list (op * Z))
  : option InMemoryCache :=
  match ops with
  | [] => Some c
  | (o, now) :: ops' => c' ← step c o now; run c' ops'
  end.

(** *** Observations on a state *)

(** The resident entries in recency order, most recent first. *)
Definition entries (c : InMemoryCache) : list entry :=
  omap (λ el, heap c !! el) (lruList c).

Definition keys (c : InMemoryCache) : list string := key <$> entries c.

(** The entry a key resolves to through the map. *)
Definition lookup_entry (c : InMemoryCache) (k : string) : option entry :=
  el ← cache c !! k; heap c !! el.

(** The keys resident in [c] that [c'] no longer holds, in the recency
    order of [c]. *)
Definition evicted_keys (c c' : InMemoryCache) : list string :=
  filter (λ k, cache c' !! k = None) (keys c).

(** Every entry [k] resolves to is already expired at instant [t]. *)
Definition stale (c : InMemoryCache) (k : string) (t : Z) : Prop :=
  ∀ e, lookup_entry c k = Some e → ttl e ≤ t.

(** Is [o] a [Set] of key [k]? *)
Definition sets_key (k : string) (o : op) : bool :=
  match o with
  | OpSet k' _ _ => bool_decide (k' = k)
  | _ => false
  end.

(** A [Set] request together with the instant it is served at;
    [put_op] is that request as an element of a sequence of operations and
    [put_entry] is the entry it writes. *)
Record put : Type := Put {
  put_key : string;
  put_value : any;
  put_ttl : Z;
  put_at : Z
}.

Definition put_op (p : put) : op * Z :=
  (OpSet (put_key p) (put_value p) (put_ttl p), put_at p).

Definition put_entry (p : put) : entry :=
  {| key := put_key p; value := put_value p;
     ttl := put_at p + put_ttl p |}.

(** The states the operations lead to: [removed] after
    [removeElement] of the element [el] holding [e]; [touched] after a
    hit on [el]; [updated] after [Set] rewrote the entry of [el] to [e'];
    [pushed] after [Set] inserted a new element holding [e']. *)
Definition removed (c : InMemoryCache) (el : loc) (e : entry)
  : InMemoryCache :=
  {| maxSize := maxSize c;
     cache := delete (key e) (cache c);
     lruList := Remove (lruList c) el;
     heap := heap c |}.

Definition touched (c : InMemoryCache) (el : loc) : InMemoryCache :=
  {| maxSize := maxSize c;
     cache := cache c;
     lruList := MoveToFront (lruList c) el;
     heap := heap c |}.

Definition updated (c : InMemoryCache) (el : loc) (e' : entry)
  : InMemoryCache :=
  {| maxSize := maxSize c;
     cache := cache c;
     lruList := MoveToFront (lruList c) el;
     heap := <[el := e']> (heap c) |}.

Definition pushed (c : InMemoryCache) (e' : entry) : InMemoryCache :=
  let el := fresh (dom (heap c)) in
  {| maxSize := maxSize c;
     cache := <[key e' := el]> (cache c);
     lruList := PushFront (lruList c) el;
     heap := <[el := e']> (heap c) |}.

(** The map and the list describe the same elements. *)
Record wf (c : InMemoryCache) : Prop := Wf {
  wf_nodup : NoDup (lruList c);
  wf_list : ∀ el, el ∈ lruList c →
    ∃ e, heap c !! el = Some e ∧ cache c !! key e = Some el;
  wf_map : ∀ k el, cache c !! k = Some el →
    el ∈ lruList c ∧ ∃ e, heap c !! el = Some e ∧ key e = k;
  wf_size : size (cache c) = length (lruList c)
}.

End LRU.

(** ** The two-tier cache (the unified cache program) *)

Module Tiered.

(** The [Cache] interface.  [S] is the state behind the receiver; the
    last argument of [Set_] and [Get] is the instant [time.Now()] would
    return during the call. *)
Class Cache (S : Type) : Type := {
  Set_ : S → string → any → Z → Z → S * error;
  Get : S → string → Z → S * (any * error);
  Delete : S → string → S * error
}.

(** *** The local tier: a plain map, no bound, no recency *)

Record CacheItem : Type := Item { Value : any; TTL : Z }.

Record InMemoryCache : Type := Mem { data : gmap string CacheItem }.

Definition NewInMemoryCache : InMemoryCache := {| data := ∅ |}.

Definition InMemoryCache_Set (c : InMemoryCache) (k : string) (v : any)
    (d now : Z) : InMemoryCache * error :=
  ({| data := <[k := {| Value := v; TTL := now + d |}]> (data c) |}, None).

Definition InMemoryCache_Get (c : InMemoryCache) (k : string) (now : Z)
  : InMemoryCache * (any * error) :=
  match data c !! k with
  | None => (c, (ANil, None))
  | Some item =>
      if bool_decide (TTL item < now) then (c, (ANil, None))
      else (c, (Value item, None))
  end.

Definition InMemoryCache_Delete (c : InMemoryCache) (k : string)
  : InMemoryCache * error :=
  ({| data := delete k (data c) |}, None).

#[export] Instance InMemoryCache_Cache : Cache InMemoryCache := {|
  Set_ := InMemoryCache_Set;
  Get := InMemoryCache_Get;
  Delete := InMemoryCache_Delete
|}.

(** *** The remote tier: a Redis client

    The go-redis client and the server behind it are not part of the
    repository; [RedisClient] is the interface the program uses.  [C] is
    the state of the connection and the server together.  [client_Get]
    returns [redis.Nil] as [Some RedisNilErr]. *)
Class RedisClient (C : Type) : Type := {
  client_Set : C → string → any → Z → C * error;
  client_Get : C → string → C * (string * error);
  client_Del : C → string → C * error
}.

(** The two library functions the program calls on payloads:
    [fmt.Sprintf("%v", v)] and [strconv.Atoi] ([None] on a parse
    error). *)
Class GoLib : Type := {
  Sprintf_v : any → string;
  Atoi : string → option Z
}.

Record RedisCache (C : Type) : Type := Redis_ { client : C }.
Arguments Redis_ {C} _.
Arguments client {C} _.

Section RedisCache.
Context {C : Type} `{!RedisClient C} `{!GoLib}.

Definition RedisCache_Set (c : RedisCache C) (k : string) (v : any)
    (d now : Z) : RedisCache C * error :=
  let '(cl, err) := client_Set (client c) k v d in
  (Redis_ cl, err).

Definition RedisCache_Get (c : RedisCache C) (k : string) (now : Z)
  : RedisCache C * (any * error) :=
  let '(cl, (val, err)) := client_Get (client c) k in
  match err with
  | Some RedisNilErr => (Redis_ cl, (ANil, None))
  | Some e => (Redis_ cl, (ANil, Some e))
  | None =>
      match Atoi val with
      | None => (Redis_ cl, (AStr val, None))
      | Some intVal => (Redis_ cl, (AInt intVal, None))
      end
  end.

Definition RedisCache_Delete (c : RedisCache C) (k : string)
  : RedisCache C * error :=
  let '(cl, err) := client_Del (client c) k in
  (Redis_ cl, err).

#[export] Instance RedisCache_Cache : Cache (RedisCache C) := {|
  Set_ := RedisCache_Set;
  Get := RedisCache_Get;
  Delete := RedisCache_Delete
|}.
End RedisCache.

(** *** The composition *)

Record UnifiedCache (L R : Type) : Type := Unified {
  InMemory : L;
  Redis : R
}.
Arguments Unified {L R} _ _.
Arguments InMemory {L R} _.
Arguments Redis {L R} _.

Section UnifiedCache.
Context {L R : Type} `{!Cache L} `{!Cache R} `{!GoLib}.

Definition UnifiedCache_Set (u : UnifiedCache L R) (k : string) (v : any)
    (d now : Z) : UnifiedCache L R * error :=
  let '(l, err) := Set_ (InMemory u) k v d now in
  match err with
  | Some e => (Unified l (Redis u), Some e)
  | None =>
      let strValue := Sprintf_v v in
      let '(r, err) := Set_ (Redis u) k (AStr strValue) d now in
      (Unified l r, err)
  end.

Definition UnifiedCache_Get (u : UnifiedCache L R) (k : string) (now : Z)
  : UnifiedCache L R * (any * error) :=
  let '(l, (value, err)) := Get (InMemory u) k now in
  match err, is_nil value with
  | None, false => (Unified l (Redis u), (value, None))
  | _, _ =>
      let '(r, (rawValue, err)) := Get (Redis u) k now in
      match err with
      | Some e => (Unified l r, (ANil, Some e))
      | None =>
          match rawValue with
          | AStr strValue =>
              match Atoi strValue with
              | None => (Unified l r, (AStr strValue, None))
              | Some intValue => (Unified l r, (AInt intValue, None))
              end
          | _ => (Unified l r, (rawValue, None))
          end
      end
  end.

Definition UnifiedCache_Delete (u : UnifiedCache L R) (k : string)
  : UnifiedCache L R * error :=
  let '(l, err) := Delete (InMemory u) k in
  match err with
  | Some e => (Unified l (Redis u), Some e)
  | None =>
      let '(r, err) := Delete (Redis u) k in
      (Unified l r, err)
  end.
End UnifiedCache.

(** [NewUnifiedCache], given the state [cl] of the fresh client. *)
Definition NewUnifiedCache {C : Type} (cl : C)
  : UnifiedCache InMemoryCache (RedisCache C) :=
  Unified NewInMemoryCache (Redis_ cl).

(** *** A recording client, for the examples

    It keeps the stored strings and the list of commands it has received
    (newest first), and refuses every command while [down]. *)
Inductive command : Type :=
  | CmdSet (k : string) (v : any) (d : Z)
  | CmdGet (k : string)
  | CmdDel (k : string).

Record recorder : Type := Recorder {
  store : gmap string string;
  received : list command;
  down : bool
}.

Definition refused : error := Some (ErrMsg "connection refused").

Definition recorder_Set (c : recorder) (k : string) (v : any) (d : Z)
  : recorder * error :=
  let log := CmdSet k v d :: received c in
  if down c then (Recorder (store c) log true, refused)
  else
    let s := match v with AStr s => s | _ => EmptyString end in
    (Recorder (<[k := s]> (store c)) log false, None).

Definition recorder_Get (c : recorder) (k : string)
  : recorder * (string * error) :=
  let c' := Recorder (store c) (CmdGet k :: received c) (down c) in
  if down c then (c', (EmptyString, refused))
  else
    match store c !! k with
    | Some s => (c', (s, None))
    | None => (c', (EmptyString, Some RedisNilErr))
    end.

Definition recorder_Del (c : recorder) (k : string) : recorder * error :=
  let log := CmdDel k :: received c in
  if down c then (Recorder (store c) log true, refused)
  else (Recorder (delete k (store c)) log false, None).

#[export] Instance recorder_client : RedisClient recorder := {|
  client_Set := recorder_Set;
  client_Get := recorder_Get;
  client_Del := recorder_Del
|}.

(** A stand-in for the two library functions on the payloads the
    examples use: strings print as themselves, and only ["7"] parses. *)
Definition sample_lib : GoLib := {|
  Sprintf_v := λ v,
    match v with
    | AStr s => s
    | AInt 7 => "7"%string
    | ANil => "<nil>"%string
    | _ => "?"%string
    end;
  Atoi := λ s, if decide (s = "7"%string) then Some 7 else None
|}.

End Tiered.

(** ** The HTTP front ends *)

(** What the handlers use of [net/http]. *)
Module HTTP.

(** The parts of a request a handler reads: the method, the value of
    [r.URL.Query().Get("key")] (empty when the parameter is missing) and
    the body. *)
Record Request : Type := Req {
  Method : string;
  key_param : string;
  Body : string
}.

(** What has been sent once the handler returns: the status code and the
    text written to the response. *)
Record Response : Type := Resp {
  status : Z;
  written : string
}.

Definition StatusOK : Z := 200.
Definition StatusCreated : Z := 201.
Definition StatusBadRequest : Z := 400.
Definition StatusNotFound : Z := 404.
Definition StatusMethodNotAllowed : Z := 405.
Definition StatusInternalServerError : Z := 500.

Definition MethodGet : string := "GET".
Definition MethodPost : string := "POST".
Definition MethodDelete : string := "DELETE".

Definition newline : string := String (Ascii.ascii_of_nat 10) EmptyString.

(** [http.Error(w, msg, code)] sends [code] and [msg] followed by a
    newline. *)
Definition http_Error (msg : string) (code : Z) : Response :=
  {| status := code; written := msg +:+ newline |}.

(** [err.Error()] *)
Definition Error (e : error_value) : string :=
  match e with
  | ErrMsg msg => msg
  | RedisNilErr => "redis: nil"
  end.

End HTTP.

(** *** The handlers of [inmemory_cache_restapi.go] *)

Module LRU_HTTP.
Import HTTP LRU.

Record CacheEntry : Type := Entry_ {
  Key : string;
  Value : Z;
  TTL : string
}.

(** The library functions the handlers call: decoding the JSON body into
    a [CacheEntry], [time.ParseDuration] (both [None] on an error), and
    encoding the answer [{"key": k, "value": v}]. *)
Class HttpLib : Type := {
  decode_CacheEntry : string → option CacheEntry;
  ParseDuration : string → option Z;
  encode_key_value : string → any → string
}.

Section handlers.
Context `{!HttpLib}.

(** A handler returns [None] where the cache operation it calls would
    panic. *)
Definition handleSet (cache : InMemoryCache) (r : Request) (now : Z)
  : option (InMemoryCache * Response) :=
  match decode_CacheEntry (Body r) with
  | None => Some (cache, http_Error "Invalid request body" StatusBadRequest)
  | Some data =>
      match ParseDuration (TTL data) with
      | None => Some (cache, http_Error "Invalid TTL format" StatusBadRequest)
      | Some ttlDuration =>
          res ← Set_ cache (Key data) (AInt (Value data)) ttlDuration now;
          Some (res.1,
                {| status := StatusCreated;
                   written := "Key '" +:+ Key data
                              +:+ "' set successfully" +:+ newline |})
      end
  end.

Definition handleGet (cache : InMemoryCache) (r : Request) (now : Z)
  : option (InMemoryCache * Response) :=
  let key := key_param r in
  if decide (key = EmptyString) then
    Some (cache, http_Error "Key not provided" StatusBadRequest)
  else
    res ← Get cache key now;
    match res.2.2 with
    | Some _ =>
        Some (res.1,
              http_Error ("Key '" +:+ key +:+ "' not found") StatusNotFound)
    | None =>
        Some (res.1,
              {| status := StatusOK;
                 written := encode_key_value key res.2.1 |})
    end.

Definition handleDelete (cache : InMemoryCache) (r : Request)
  : option (InMemoryCache * Response) :=
  let key := key_param r in
  if decide (key = EmptyString) then
    Some (cache, http_Error "Key not provided" StatusBadRequest)
  else
    res ← Delete cache key;
    match res.2 with
    | Some _ =>
        Some (res.1,
              http_Error ("Failed to delete key '" +:+ key +:+ "'")
                StatusNotFound)
    | None =>
        Some (res.1,
              {| status := StatusOK;
                 written := "Key '" +:+ key
                            +:+ "' deleted successfully" +:+ newline |})
    end.

(** The function [main] registers for ["/cache"]. *)
Definition serve (cache : InMemoryCache) (r : Request) (now : Z)
  : option (InMemoryCache * Response) :=
  if decide (Method r = MethodGet) then handleGet cache r now
  else if decide (Method r = MethodPost) then handleSet cache r now
  else if decide (Method r = MethodDelete) then handleDelete cache r
  else Some (cache, http_Error "Method not allowed" StatusMethodNotAllowed).

(** The requests of a list, each with the instant it is served at, one
    after the other. *)
Fixpoint serve_all (cache : InMemoryCache) (rs : list (Request * Z))
  : option (InMemoryCache * list Response) :=
  match rs with
  | [] => Some (cache, [])
  | (r, now) :: rs' =>
      res ← serve cache r now;
      rest ← serve_all res.1 rs';
      Some (rest.1, res.2 :: rest.2)
  end.

End handlers.

(** The status codes this server sends. *)
Definition sent (code : Z) : Prop :=
  code = StatusOK ∨ code = StatusCreated ∨ code = StatusBadRequest
  ∨ code = StatusNotFound ∨ code = StatusMethodNotAllowed.

(** The cache [main] builds. *)
Definition main_cache : InMemoryCache := NewInMemoryCache 3.

(** A stand-in for the library, for the examples: the body ["a"] decodes
    to key ["a"], value [1] and TTL ["10ns"], the body ["e"] to the empty
    key, and only ["10ns"] parses as a duration. *)
Definition sample_http : HttpLib := {|
  decode_CacheEntry := λ b,
    if decide (b = "a"%string) then Some (Entry_ "a" 1 "10ns")
    else if decide (b = "e"%string) then Some (Entry_ "" 1 "10ns")
    else None;
  ParseDuration := λ s, if decide (s = "10ns"%string) then Some 10 else None;
  encode_key_value := λ k v, k
|}.

End LRU_HTTP.

(** *** The handlers of the unified cache program *)

Module Tiered_HTTP.
Import HTTP Tiered.

(** The anonymous struct [handleSet] decodes the body into. *)
Record SetData : Type := SetData_ {
  data_Key : string;
  data_Value : any;
  data_TTL : string
}.

Class HttpLib : Type := {
  decode_SetData : string → option SetData;
  ParseDuration : string → option Z;
  encode_response : string → any → string
}.

Section handlers.
Context {C : Type} `{!RedisClient C} `{!GoLib} `{!HttpLib}.

Abbreviation cache_t := (UnifiedCache InMemoryCache (RedisCache C)).

Definition handleSet (cache : cache_t) (r : Request) (now : Z)
  : cache_t * Response :=
  match decode_SetData (Body r) with
  | None => (cache, http_Error "Invalid request body" StatusBadRequest)
  | Some data =>
      match ParseDuration (data_TTL data) with
      | None => (cache, http_Error "Invalid TTL format" StatusBadRequest)
      | Some ttl =>
          let '(cache', err) :=
            UnifiedCache_Set cache (data_Key data) (data_Value data) ttl now in
          match err with
          | Some e => (cache', http_Error (Error e) StatusInternalServerError)
          | None =>
              (cache',
               {| status := StatusOK;
                  written := "Key '" +:+ data_Key data
                             +:+ "' set successfully" +:+ newline |})
          end
      end
  end.

Definition handleGet (cache : cache_t) (r : Request) (now : Z)
  : cache_t * Response :=
  let key := key_param r in
  if decide (key = EmptyString) then
    (cache, http_Error "Key not provided" StatusBadRequest)
  else
    let '(cache', (value, err)) := UnifiedCache_Get cache key now in
    match err with
    | Some e => (cache', http_Error (Error e) StatusNotFound)
    | None =>
        (cache',
         {| status := StatusOK; written := encode_response key value |})
    end.

Definition handleDelete (cache : cache_t) (r : Request)
  : cache_t * Response :=
  let key := key_param r in
  if decide (key = EmptyString) then
    (cache, http_Error "Key not provided" StatusBadRequest)
  else
    let '(cache', err) := UnifiedCache_Delete cache key in
    match err with
    | Some e => (cache', http_Error (Error e) StatusInternalServerError)
    | None =>
        (cache',
         {| status := StatusOK;
            written := "Key '" +:+ key
                       +:+ "' deleted successfully" +:+ newline |})
    end.

(** The three functions [main] registers, for ["/cache/set"],
    ["/cache/get"] and ["/cache/delete"]. *)
Definition serve_set (cache : cache_t) (r : Request) (now : Z)
  : cache_t * Response :=
  if decide (Method r ≠ MethodPost) then
    (cache, http_Error "Method not allowed" StatusMethodNotAllowed)
  else handleSet cache r now.

Definition serve_get (cache : cache_t) (r : Request) (now : Z)
  : cache_t * Response :=
  if decide (Method r ≠ MethodGet) then
    (cache, http_Error "Method not allowed" StatusMethodNotAllowed)
  else handleGet cache r now.

Definition serve_delete (cache : cache_t) (r : Request)
  : cache_t * Response :=
  if decide (Method r ≠ MethodDelete) then
    (cache, http_Error "Method not allowed" StatusMethodNotAllowed)
  else handleDelete cache r.

End handlers.

(** A stand-in for the library, for the examples: the body ["k"] decodes
    to key ["k"], the string value ["x"] and TTL ["10ns"], the body ["e"]
    to the same under the empty key. *)
Definition sample_http : HttpLib := {|
  decode_SetData := λ b,
    if decide (b = "k"%string) then Some (SetData_ "k" (AStr "x") "10ns")
    else if decide (b = "e"%string)
         then Some (SetData_ "" (AStr "x") "10ns")
    else None;
  ParseDuration := λ s, if decide (s = "10ns"%string) then Some 10 else None;
  encode_response := λ k v, k
|}.

End Tiered_HTTP.

(** ** Facts about the LRU + TTL engine *)

Module LRU_Facts.
Import LRU.

(** *** container/list *)

Lemma Remove_length (l : list loc) (el : loc) :
  NoDup l → el ∈ l → S (length (Remove l el)) = length l.
Proof.
  unfold Remove. induction l as [|x l IH]; intros Hnd Hin.
  - by apply not_elem_of_nil in Hin.
  - apply NoDup_cons in Hnd as [Hx Hnd]. rewrite filter_cons.
    destruct (decide (x ≠ el)) as [Hne|Heq]; simpl.
    + apply elem_of_cons in Hin as [->|Hin]; [done|]. by rewrite IH.
    + apply dec_stable in Heq. subst x. f_equal.
      f_equal. clear IH Hnd Hin. induction l as [|y l IH]; [done|].
      apply not_elem_of_cons in Hx as [Hy Hx]. rewrite filter_cons.
      destruct (decide (y ≠ el)) as [|[]]; [by rewrite IH|congruence].
Qed.

Lemma Remove_absent (l : list loc) (el : loc) : el ∉ l → Remove l el = l.
Proof.
  unfold Remove. induction l as [|y l IH]; [done|]. intros Hx.
  apply not_elem_of_cons in Hx as [Hy Hx]. rewrite filter_cons.
  destruct (decide (y ≠ el)) as [|[]]; [by rewrite IH|congruence].
Qed.

Lemma Remove_snoc (l : list loc) (el : loc) :
  NoDup (l ++ [el]) → Remove (l ++ [el]) el = l.
Proof.
  intros [_ [Hl _]]%NoDup_app. unfold Remove. rewrite filter_app.
  fold (Remove l el). rewrite Remove_absent.
  - rewrite filter_cons. destruct (decide (el ≠ el)); [done|].
    by rewrite app_nil_r.
  - intros Hin. apply (Hl _ Hin). by apply list_elem_of_singleton.
Qed.

Lemma elem_of_Remove (l : list loc) (el x : loc) :
  x ∈ Remove l el ↔ x ≠ el ∧ x ∈ l.
Proof. unfold Remove. by rewrite list_elem_of_filter. Qed.

Lemma MoveToFront_present (l : list loc) (el : loc) :
  el ∈ l → MoveToFront l el = el :: Remove l el.
Proof. intros Hin. unfold MoveToFront. by rewrite decide_True. Qed.

(** *** Well-formed states *)

Lemma wf_New (n : Z) : wf (NewInMemoryCache n).
Proof.
  split; simpl.
  - constructor.
  - intros el Hin. by apply not_elem_of_nil in Hin.
  - intros k el Hk. by rewrite lookup_empty in Hk.
  - by rewrite map_size_empty.
Qed.

Lemma wf_key_inj (c : InMemoryCache) (el1 el2 : loc) (e1 e2 : entry) :
  wf c → el1 ∈ lruList c → el2 ∈ lruList c →
  heap c !! el1 = Some e1 → heap c !! el2 = Some e2 →
  key e1 = key e2 → el1 = el2.
Proof.
  intros Hwf H1 H2 Hh1 Hh2 Hk.
  destruct (wf_list c Hwf el1 H1) as (e1' & He1 & Hc1).
  destruct (wf_list c Hwf el2 H2) as (e2' & He2 & Hc2).
  simplify_eq. congruence.
Qed.

Lemma removeElement_eq (c : InMemoryCache) (el : loc) (e : entry) :
  heap c !! el = Some e → removeElement c el = Some (removed c el e).
Proof. intros He. unfold removeElement. by rewrite He. Qed.

Lemma wf_removed (c : InMemoryCache) (el : loc) (e : entry) :
  wf c → el ∈ lruList c → heap c !! el = Some e → wf (removed c el e).
Proof.
  intros Hwf Hin He.
  destruct (wf_list c Hwf el Hin) as (e0 & He0 & Hce). simplify_eq.
  split; simpl.
  - apply NoDup_filter, Hwf.
  - intros el' [Hne Hin']%elem_of_Remove.
    destruct (wf_list c Hwf el' Hin') as (e' & He' & Hc').
    exists e'. split; [done|]. rewrite lookup_delete_ne; [done|].
    intros Hk. apply Hne. symmetry. by eapply wf_key_inj.
  - intros k el' Hk. apply lookup_delete_Some in Hk as [Hne Hk].
    destruct (wf_map c Hwf k el' Hk) as (Hin' & e' & He' & Hke).
    split; [|by exists e'].
    apply elem_of_Remove. split; [|done]. intros ->. congruence.
  - rewrite map_size_delete_Some by eauto.
    pose proof (Remove_length (lruList c) el (wf_nodup c Hwf) Hin).
    pose proof (wf_size c Hwf). lia.
Qed.

Lemma wf_touched (c : InMemoryCache) (el : loc) :
  wf c → el ∈ lruList c → wf (touched c el).
Proof.
  intros Hwf Hin. split; simpl; rewrite ?MoveToFront_present by done.
  - apply NoDup_cons. split; [|apply NoDup_filter, Hwf].
    rewrite elem_of_Remove. tauto.
  - intros el' Hin'. apply (wf_list c Hwf).
    apply elem_of_cons in Hin' as [->|[_ ?]%elem_of_Remove]; done.
  - intros k el' Hk. destruct (wf_map c Hwf k el' Hk) as [Hin' He'].
    split; [|done]. apply elem_of_cons.
    destruct (decide (el' = el)); [by left|right].
    by apply elem_of_Remove.
  - simpl. pose proof (Remove_length _ _ (wf_nodup c Hwf) Hin).
    pose proof (wf_size c Hwf). lia.
Qed.

Lemma wf_updated (c : InMemoryCache) (el : loc) (e e' : entry) :
  wf c → el ∈ lruList c → heap c !! el = Some e → key e' = key e →
  wf (updated c el e').
Proof.
  intros Hwf Hin He Hk.
  destruct (wf_touched c el Hwf Hin) as [Hnd Hl Hm Hs].
  simpl in *. split; simpl; [done| | |done].
  - intros el' Hin'. destruct (decide (el' = el)) as [->|Hne].
    + exists e'. rewrite lookup_insert_eq. split; [done|].
      destruct (Hl el Hin') as (e0 & ? & ?). rewrite Hk. congruence.
    + rewrite lookup_insert_ne by done. by apply Hl.
  - intros k el' Hc. destruct (Hm k el' Hc) as (Hin' & e0 & He0 & Hk0).
    split; [done|]. destruct (decide (el' = el)) as [->|Hne].
    + exists e'. rewrite lookup_insert_eq. split; [done|]. congruence.
    + exists e0. by rewrite lookup_insert_ne.
Qed.

Lemma fresh_not_listed (c : InMemoryCache) :
  wf c → fresh (dom (heap c)) ∉ lruList c.
Proof.
  intros Hwf Hin. destruct (wf_list c Hwf _ Hin) as (e & He & _).
  apply (is_fresh (dom (heap c))). apply elem_of_dom. eauto.
Qed.

Lemma wf_pushed (c : InMemoryCache) (e' : entry) :
  wf c → cache c !! key e' = None → wf (pushed c e').
Proof.
  intros Hwf Hnew. pose proof (fresh_not_listed c Hwf) as Hfr.
  set (el := fresh (dom (heap c))) in *.
  split; unfold pushed, PushFront; simpl; fold el.
  - apply NoDup_cons. split; [done|apply Hwf].
  - intros el' [->|Hin']%elem_of_cons.
    + exists e'. by rewrite !lookup_insert_eq.
    + destruct (wf_list c Hwf el' Hin') as (e0 & He0 & Hc0).
      assert (el ≠ el') by congruence.
      assert (key e' ≠ key e0) by congruence.
      exists e0. by rewrite !lookup_insert_ne.
  - intros k el' Hc. apply lookup_insert_Some in Hc as [[<- <-]|[Hne Hc]].
    + split; [by left|]. exists e'. by rewrite lookup_insert_eq.
    + destruct (wf_map c Hwf k el' Hc) as (Hin' & e0 & He0 & Hk0).
      split; [by right|]. exists e0.
      assert (el ≠ el') by congruence. by rewrite lookup_insert_ne.
  - rewrite map_size_insert_None by done. f_equal. apply Hwf.
Qed.

(** *** The branches of the operations on well-formed states *)

Lemma wf_lookup_entry (c : InMemoryCache) (k : string) (e : entry) :
  wf c → lookup_entry c k = Some e →
  ∃ el, cache c !! k = Some el ∧ heap c !! el = Some e ∧
        el ∈ lruList c ∧ key e = k.
Proof.
  intros Hwf Hl. unfold lookup_entry in Hl.
  destruct (cache c !! k) as [el|] eqn:Hc; [|done]. simpl in Hl.
  destruct (wf_map c Hwf k el Hc) as (Hin & e0 & He0 & Hk).
  exists el. by simplify_eq.
Qed.

Lemma wf_resident (c : InMemoryCache) (k : string) (el : loc) :
  wf c → cache c !! k = Some el → ∃ e, lookup_entry c k = Some e.
Proof.
  intros Hwf Hc. destruct (wf_map c Hwf k el Hc) as (_ & e & He & _).
  exists e. unfold lookup_entry. by rewrite Hc.
Qed.

Lemma lookup_entry_None (c : InMemoryCache) (k : string) :
  wf c → lookup_entry c k = None ↔ cache c !! k = None.
Proof.
  intros Hwf. split.
  - intros Hl. destruct (cache c !! k) as [el|] eqn:Hc; [|done].
    destruct (wf_resident c k el Hwf Hc) as [e He]. congruence.
  - intros Hc. unfold lookup_entry. by rewrite Hc.
Qed.

Lemma Set_existing (c : InMemoryCache) (k : string) (v : any) (d now : Z)
    (el : loc) (e : entry) :
  cache c !! k = Some el → heap c !! el = Some e →
  Set_ c k v d now
  = Some (updated c el {| key := key e; value := v; ttl := now + d |}, None).
Proof. intros Hc He. unfold Set_. by rewrite Hc, He. Qed.

Lemma Set_new_room (c : InMemoryCache) (k : string) (v : any) (d now : Z) :
  cache c !! k = None → Z.of_nat (size (cache c)) < maxSize c →
  Set_ c k v d now
  = Some (pushed c {| key := k; value := v; ttl := now + d |}, None).
Proof.
  intros Hc Hlt. unfold Set_. rewrite Hc.
  by rewrite bool_decide_eq_false_2 by lia.
Qed.

Lemma Set_new_full (c : InMemoryCache) (k : string) (v : any) (d now : Z)
    (l : list loc) (el : loc) (e : entry) :
  cache c !! k = None → maxSize c ≤ Z.of_nat (size (cache c)) →
  lruList c = l ++ [el] → heap c !! el = Some e →
  Set_ c k v d now
  = Some (pushed (removed c el e)
            {| key := k; value := v; ttl := now + d |}, None).
Proof.
  intros Hc Hle Hl He. unfold Set_. rewrite Hc.
  rewrite bool_decide_eq_true_2 by lia.
  unfold evict, Back. rewrite Hl, last_snoc.
  by rewrite (removeElement_eq c el e He).
Qed.

Lemma Set_new_empty (c : InMemoryCache) (k : string) (v : any) (d now : Z) :
  cache c !! k = None → lruList c = [] →
  Set_ c k v d now
  = Some (pushed c {| key := k; value := v; ttl := now + d |}, None).
Proof.
  intros Hc Hl. unfold Set_. rewrite Hc.
  case_bool_decide; [|done]. unfold evict, Back. by rewrite Hl.
Qed.

Lemma Get_absent (c : InMemoryCache) (k : string) (now : Z) :
  cache c !! k = None → Get c k now = Some (c, (ANil, key_not_found)).
Proof. intros Hc. unfold Get. by rewrite Hc. Qed.

Lemma Get_live (c : InMemoryCache) (k : string) (now : Z)
    (el : loc) (e : entry) :
  cache c !! k = Some el → heap c !! el = Some e → now < ttl e →
  Get c k now = Some (touched c el, (value e, None)).
Proof.
  intros Hc He Hlt. unfold Get. rewrite Hc, He. simpl.
  by rewrite bool_decide_eq_true_2.
Qed.

Lemma Get_expired (c : InMemoryCache) (k : string) (now : Z)
    (el : loc) (e : entry) :
  cache c !! k = Some el → heap c !! el = Some e → ttl e ≤ now →
  Get c k now = Some (removed c el e, (ANil, key_not_found)).
Proof.
  intros Hc He Hle. unfold Get. rewrite Hc, He. simpl.
  rewrite bool_decide_eq_false_2 by lia.
  by rewrite (removeElement_eq c el e He).
Qed.

Lemma Delete_absent (c : InMemoryCache) (k : string) :
  cache c !! k = None → Delete c k = Some (c, key_not_found).
Proof. intros Hc. unfold Delete. by rewrite Hc. Qed.

Lemma Delete_present (c : InMemoryCache) (k : string)
    (el : loc) (e : entry) :
  cache c !! k = Some el → heap c !! el = Some e →
  Delete c k = Some (removed c el e, None).
Proof.
  intros Hc He. unfold Delete. rewrite Hc.
  by rewrite (removeElement_eq c el e He).
Qed.

(** *** The recency order as a list of entries *)

Lemma omap_heap_Forall2 (h : gmap loc entry) (l : list loc) :
  (∀ el, el ∈ l → is_Some (h !! el)) →
  Forall2 (λ el e, h !! el = Some e) l (omap (λ el, h !! el) l).
Proof.
  induction l as [|x l IH]; intros Hl; csimpl; [constructor|].
  destruct (Hl x) as [e He]; [by left|]. rewrite He.
  constructor; [done|]. apply IH. intros el Hin. apply Hl. by right.
Qed.

Lemma wf_Forall2 (c : InMemoryCache) :
  wf c → Forall2 (λ el e, heap c !! el = Some e) (lruList c) (entries c).
Proof.
  intros Hwf. apply omap_heap_Forall2. intros el Hin.
  destruct (wf_list c Hwf el Hin) as (e & He & _). eauto.
Qed.

Lemma entries_length (c : InMemoryCache) :
  wf c → length (entries c) = size (cache c).
Proof.
  intros Hwf. rewrite <- (Forall2_length _ _ _ (wf_Forall2 c Hwf)).
  symmetry. apply Hwf.
Qed.

Lemma elem_of_entries (c : InMemoryCache) (e : entry) :
  wf c → e ∈ entries c ↔ lookup_entry c (key e) = Some e.
Proof.
  intros Hwf. unfold entries. rewrite list_elem_of_omap. split.
  - intros (el & Hin & He). destruct (wf_list c Hwf el Hin) as (e0 & ? & Hc).
    simplify_eq. unfold lookup_entry. by rewrite Hc.
  - intros (el & Hc & He & Hin & _)%wf_lookup_entry; [|done]. eauto.
Qed.

Lemma elem_of_keys (c : InMemoryCache) (k : string) :
  wf c → k ∈ keys c ↔ is_Some (cache c !! k).
Proof.
  intros Hwf. unfold keys. rewrite list_elem_of_fmap. split.
  - intros (e & -> & He). apply elem_of_entries in He; [|done].
    apply wf_lookup_entry in He as (el & Hc & _); eauto.
  - intros [el Hc]. destruct (wf_resident c k el Hwf Hc) as [e He].
    exists e. pose proof He as (? & ? & ? & ? & ?)%wf_lookup_entry; [|done].
    split; [done|]. apply elem_of_entries; [done|]. congruence.
Qed.

Lemma omap_heap_Remove (c : InMemoryCache) (el : loc) (e : entry)
    (l : list loc) :
  wf c → el ∈ lruList c → heap c !! el = Some e → l ⊆ lruList c →
  omap (λ x, heap c !! x) (Remove l el)
  = filter (λ e', key e' ≠ key e) (omap (λ x, heap c !! x) l).
Proof.
  intros Hwf Hin He. unfold Remove.
  induction l as [|x l IH]; intros Hsub; [done|].
  assert (x ∈ lruList c) as Hx by (apply Hsub; by left).
  assert (l ⊆ lruList c) as Hl by (intros y Hy; apply Hsub; by right).
  destruct (wf_list c Hwf x Hx) as (ex & Hex & _).
  rewrite filter_cons. csimpl. rewrite Hex.
  destruct (decide (x ≠ el)) as [Hne|Heq].
  - csimpl. rewrite Hex, filter_cons_True, IH; [done..|].
    intros Hk. apply Hne. by eapply wf_key_inj.
  - apply dec_stable in Heq. subst x. simplify_eq.
    rewrite filter_cons_False by tauto. by apply IH.
Qed.

Lemma omap_insert_absent (h : gmap loc entry) (el : loc) (e : entry)
    (l : list loc) :
  el ∉ l → omap (λ x, <[el := e]> h !! x) l = omap (λ x, h !! x) l.
Proof.
  induction l as [|x l IH]; intros Hn; [done|].
  apply not_elem_of_cons in Hn as [Hne Hn]. csimpl.
  rewrite lookup_insert_ne by done. by rewrite IH.
Qed.

Lemma entries_removed (c : InMemoryCache) (el : loc) (e : entry) :
  wf c → el ∈ lruList c → heap c !! el = Some e →
  entries (removed c el e) = filter (λ e', key e' ≠ key e) (entries c).
Proof. intros. unfold entries at 1. simpl. by apply omap_heap_Remove. Qed.

Lemma entries_removed_back (c : InMemoryCache) (l : list loc) (el : loc)
    (e : entry) :
  wf c → lruList c = l ++ [el] → heap c !! el = Some e →
  entries c = entries (removed c el e) ++ [e].
Proof.
  intros Hwf Hl He. unfold entries. simpl.
  pose proof (wf_nodup c Hwf) as Hnd. rewrite Hl in *.
  rewrite Remove_snoc by done. rewrite omap_app. csimpl. by rewrite He.
Qed.

Lemma entries_touched (c : InMemoryCache) (el : loc) (e : entry) :
  wf c → el ∈ lruList c → heap c !! el = Some e →
  entries (touched c el) = e :: filter (λ e', key e' ≠ key e) (entries c).
Proof.
  intros Hwf Hin He. unfold entries at 1. simpl.
  rewrite MoveToFront_present by done. csimpl. rewrite He.
  f_equal. by apply omap_heap_Remove.
Qed.

Lemma entries_updated (c : InMemoryCache) (el : loc) (e e' : entry) :
  wf c → el ∈ lruList c → heap c !! el = Some e → key e' = key e →
  entries (updated c el e')
  = e' :: filter (λ e0, key e0 ≠ key e') (entries c).
Proof.
  intros Hwf Hin He Hk. unfold entries at 1. simpl.
  rewrite MoveToFront_present by done. csimpl.
  rewrite lookup_insert_eq. f_equal.
  rewrite omap_insert_absent by (rewrite elem_of_Remove; tauto).
  rewrite Hk. by apply omap_heap_Remove.
Qed.

Lemma entries_pushed (c : InMemoryCache) (e' : entry) :
  wf c → entries (pushed c e') = e' :: entries c.
Proof.
  intros Hwf. unfold entries, pushed, PushFront. simpl. csimpl.
  rewrite lookup_insert_eq. f_equal.
  apply omap_insert_absent. by apply fresh_not_listed.
Qed.

Lemma wf_back (c : InMemoryCache) :
  wf c → lruList c ≠ [] →
  ∃ l el e, lruList c = l ++ [el] ∧ heap c !! el = Some e ∧
            el ∈ lruList c.
Proof.
  intros Hwf Hne. apply last_is_Some in Hne as [el Hl].
  apply last_Some in Hl as [l Hl].
  assert (el ∈ lruList c) as Hin.
  { rewrite Hl. apply elem_of_app. right. by left. }
  destruct (wf_list c Hwf el Hin) as (e & He & _). by exists l, el, e.
Qed.

(** *** Every operation, on every well-formed state *)

Lemma wf_empty_list (c : InMemoryCache) :
  wf c → lruList c = [] → size (cache c) = 0%nat.
Proof. intros Hwf Hl. rewrite (wf_size c Hwf), Hl. done. Qed.

(** The four ways a [Set] can go. *)
Lemma Set_cases (c : InMemoryCache) (k : string) (v : any) (d now : Z) :
  wf c →
  let e' := {| key := k; value := v; ttl := now + d |} in
  (∃ el e, cache c !! k = Some el ∧ heap c !! el = Some e ∧
           el ∈ lruList c ∧ key e = k ∧
           Set_ c k v d now = Some (updated c el e', None))
  ∨ (cache c !! k = None ∧ Z.of_nat (size (cache c)) < maxSize c ∧
     Set_ c k v d now = Some (pushed c e', None))
  ∨ (cache c !! k = None ∧ maxSize c ≤ Z.of_nat (size (cache c)) ∧
     lruList c = [] ∧
     Set_ c k v d now = Some (pushed c e', None))
  ∨ (cache c !! k = None ∧ maxSize c ≤ Z.of_nat (size (cache c)) ∧
     ∃ l el e, lruList c = l ++ [el] ∧ heap c !! el = Some e ∧
               el ∈ lruList c ∧
               Set_ c k v d now = Some (pushed (removed c el e) e', None)).
Proof.
  intros Hwf e'. destruct (cache c !! k) as [el|] eqn:Hc.
  - left. destruct (wf_map c Hwf k el Hc) as (Hin & e & He & Hk).
    exists el, e. split_and!; [done..|].
    rewrite (Set_existing c k v d now el e Hc He). by rewrite Hk.
  - right. destruct (decide (Z.of_nat (size (cache c)) < maxSize c)).
    { left. split_and!; [done..|]. by apply Set_new_room. }
    right. destruct (decide (lruList c = [])) as [Hl|Hl].
    { left. split_and!; [done|lia|done|]. by apply Set_new_empty. }
    right. split_and!; [done|lia|].
    destruct (wf_back c Hwf Hl) as (l & el & e & Hl' & He & Hin).
    exists l, el, e. split_and!; [done..|].
    apply (Set_new_full c k v d now l el e); [done|lia|done..].
Qed.

Lemma removed_absent (c : InMemoryCache) (el : loc) (e : entry) (k : string) :
  wf c → el ∈ lruList c → heap c !! el = Some e →
  cache c !! k = None → cache (removed c el e) !! k = None.
Proof.
  intros Hwf Hin He Hc. simpl. apply lookup_delete_None. by right.
Qed.

Lemma removed_size (c : InMemoryCache) (el : loc) (e : entry) :
  wf c → el ∈ lruList c → heap c !! el = Some e →
  S (size (cache (removed c el e))) = size (cache c).
Proof.
  intros Hwf Hin He. rewrite (wf_size _ (wf_removed c el e Hwf Hin He)).
  rewrite (wf_size c Hwf). simpl. apply Remove_length; [apply Hwf|done].
Qed.

Lemma pushed_size (c : InMemoryCache) (e' : entry) :
  cache c !! key e' = None →
  size (cache (pushed c e')) = S (size (cache c)).
Proof. intros Hc. simpl. by apply map_size_insert_None. Qed.

(** [Set] always succeeds, keeps the state well formed and the bound
    unchanged, and adds at most one entry -- one only when there was room
    or nothing to evict. *)
Lemma Set_total (c : InMemoryCache) (k : string) (v : any) (d now : Z) :
  wf c →
  ∃ c', Set_ c k v d now = Some (c', None) ∧ wf c' ∧
        maxSize c' = maxSize c ∧
        (size (cache c') = size (cache c) ∨
         (size (cache c') = S (size (cache c)) ∧
          (Z.of_nat (size (cache c)) < maxSize c ∨
           size (cache c) = 0%nat))).
Proof.
  intros Hwf.
  destruct (Set_cases c k v d now Hwf)
    as [(el & e & Hc & He & Hin & Hk & ->)
       |[(Hc & Hlt & ->)
        |[(Hc & Hle & Hl & ->)
         |(Hc & Hle & l & el & e & Hl & He & Hin & ->)]]];
    eexists; (split; [reflexivity|]).
  - split_and!; [by eapply wf_updated|done|by left].
  - split_and!; [by apply wf_pushed|done|].
    right. rewrite pushed_size by done. auto.
  - split_and!; [by apply wf_pushed|done|].
    right. rewrite pushed_size by done.
    rewrite (wf_empty_list c Hwf Hl). auto.
  - pose proof (wf_removed c el e Hwf Hin He) as Hwf'.
    pose proof (removed_absent c el e k Hwf Hin He Hc) as Hc'.
    split_and!; [by apply wf_pushed|done|].
    left. rewrite pushed_size by done. by apply removed_size.
Qed.

Lemma Get_total (c : InMemoryCache) (k : string) (now : Z) :
  wf c →
  ∃ c' r, Get c k now = Some (c', r) ∧ wf c' ∧
          maxSize c' = maxSize c ∧
          (size (cache c') ≤ size (cache c))%nat.
Proof.
  intros Hwf. destruct (cache c !! k) as [el|] eqn:Hc.
  - destruct (wf_map c Hwf k el Hc) as (Hin & e & He & Hk).
    destruct (decide (now < ttl e)).
    + rewrite (Get_live c k now el e) by done.
      eexists _, _. split_and!; [done|by apply wf_touched|done..].
    + rewrite (Get_expired c k now el e) by (done || lia).
      eexists _, _. split_and!; [done|by apply wf_removed|done|].
      pose proof (removed_size c el e Hwf Hin He). lia.
  - rewrite Get_absent by done. eexists _, _. by split_and!.
Qed.

Lemma Delete_total (c : InMemoryCache) (k : string) :
  wf c →
  ∃ c' r, Delete c k = Some (c', r) ∧ wf c' ∧
          maxSize c' = maxSize c ∧
          (size (cache c') ≤ size (cache c))%nat.
Proof.
  intros Hwf. destruct (cache c !! k) as [el|] eqn:Hc.
  - destruct (wf_map c Hwf k el Hc) as (Hin & e & He & Hk).
    rewrite (Delete_present c k el e) by done.
    eexists _, _. split_and!; [done|by apply wf_removed|done|].
    pose proof (removed_size c el e Hwf Hin He). lia.
  - rewrite Delete_absent by done. eexists _, _. by split_and!.
Qed.

Lemma step_total (c : InMemoryCache) (o : op) (now : Z) :
  wf c →
  ∃ c', step c o now = Some c' ∧ wf c' ∧ maxSize c' = maxSize c ∧
        ((size (cache c') ≤ size (cache c))%nat ∨
         (size (cache c') = S (size (cache c)) ∧
          (Z.of_nat (size (cache c)) < maxSize c ∨
           size (cache c) = 0%nat))).
Proof.
  intros Hwf. destruct o as [k v d|k|k]; simpl.
  - destruct (Set_total c k v d now Hwf) as (c' & -> & ? & ? & [?|?]).
    + exists c'. split_and!; [done..|]. left. lia.
    + exists c'. split_and!; [done..|]. by right.
  - destruct (Get_total c k now Hwf) as (c' & r & -> & ? & ? & ?).
    exists c'. split_and!; [done..|]. by left.
  - destruct (Delete_total c k Hwf) as (c' & r & -> & ? & ? & ?).
    exists c'. split_and!; [done..|]. by left.
Qed.

(** A bound [b ≥ 1] on the size that dominates [maxSize] is kept by every
    sequence of operations. *)
Lemma run_bounded (b : nat) (ops : list (op * Z)) (c : InMemoryCache) :
  wf c → (1 ≤ b)%nat → maxSize c ≤ Z.of_nat b →
  (size (cache c) ≤ b)%nat →
  ∃ c', run c ops = Some c' ∧ wf c' ∧ maxSize c' = maxSize c ∧
        (size (cache c') ≤ b)%nat.
Proof.
  revert c. induction ops as [|[o now] ops IH]; intros c Hwf Hb Hmax Hsz.
  - exists c. by split_and!.
  - simpl. destruct (step_total c o now Hwf) as (c1 & -> & Hwf1 & Hm1 & Hs1).
    simpl. destruct (IH c1) as (c' & Hrun & ? & ? & ?); [done|done|lia|lia|].
    exists c'. split_and!; [done|done|congruence|done].
Qed.

Lemma run_wf (c c' : InMemoryCache) (ops : list (op * Z)) :
  wf c → run c ops = Some c' → wf c'.
Proof.
  revert c. induction ops as [|[o now] ops IH]; intros c Hwf Hrun.
  - simpl in Hrun. by simplify_eq.
  - simpl in Hrun. destruct (step_total c o now Hwf) as (c1 & Hs & Hwf1 & _).
    rewrite Hs in Hrun. simpl in Hrun. by eapply IH.
Qed.

Lemma reachable_wf (n : Z) (ops : list (op * Z)) (c : InMemoryCache) :
  run (NewInMemoryCache n) ops = Some c → wf c.
Proof. apply run_wf, wf_New. Qed.

(** *** The capacity bound *)

(** C1.  For every positive capacity [n] and every finite sequence of
    Set/Get/Delete requests served from the empty cache of capacity [n],
    the run completes and the map then holds at most [n] entries.  Every
    prefix of a sequence is itself a sequence, so the bound holds after
    each operation. *)
Theorem capacity_invariant (n : Z) (ops : list (op * Z)) :
  0 < n →
  ∃ c, run (NewInMemoryCache n) ops = Some c ∧
       Z.of_nat (size (cache c)) ≤ n ∧
       length (entries c) = size (cache c).
Proof.
  intros Hn.
  destruct (run_bounded (Z.to_nat n) ops (NewInMemoryCache n))
    as (c & Hrun & Hwf & _ & Hsz).
  - apply wf_New.
  - lia.
  - simpl. lia.
  - simpl. rewrite map_size_empty. lia.
  - exists c. split_and!; [done|lia|by apply entries_length].
Qed.

Lemma capacity_invariant_witness :
  0 < 2 ∧
  ∃ c, run (NewInMemoryCache 2)
         [(OpSet "a" (AInt 1) 10, 0); (OpSet "b" (AInt 2) 10, 1);
          (OpGet "a", 2); (OpSet "c" (AInt 3) 10, 3);
          (OpDelete "zz", 4)] = Some c ∧
       Z.of_nat (size (cache c)) ≤ 2 ∧
       length (entries c) = size (cache c).
Proof. split; [lia|]. apply (capacity_invariant 2). lia. Defined.

(** *** What a key resolves to after each transition *)

Lemma lookup_entry_touched (c : InMemoryCache) (el : loc) (k : string) :
  lookup_entry (touched c el) k = lookup_entry c k.
Proof. done. Qed.

Lemma lookup_entry_removed (c : InMemoryCache) (el : loc) (e : entry)
    (k : string) :
  lookup_entry (removed c el e) k
  = if decide (k = key e) then None else lookup_entry c k.
Proof.
  unfold lookup_entry. simpl. destruct (decide (k = key e)) as [->|Hne].
  - by rewrite lookup_delete_eq.
  - by rewrite lookup_delete_ne.
Qed.

Lemma lookup_entry_updated (c : InMemoryCache) (el : loc) (e e' : entry)
    (k : string) :
  wf c → el ∈ lruList c → heap c !! el = Some e → key e' = key e →
  lookup_entry (updated c el e') k
  = if decide (k = key e') then Some e' else lookup_entry c k.
Proof.
  intros Hwf Hin He Hk. unfold lookup_entry. simpl.
  destruct (wf_list c Hwf el Hin) as (e0 & He0 & Hc). simplify_eq.
  destruct (decide (k = key e')) as [->|Hne].
  - rewrite Hk, Hc. simpl. apply lookup_insert_eq.
  - destruct (cache c !! k) as [el'|] eqn:Hc'; [|done]. simpl.
    rewrite lookup_insert_ne; [done|]. intros <-.
    destruct (wf_map c Hwf k el Hc') as (_ & e1 & He1 & Hk1). congruence.
Qed.

Lemma lookup_entry_pushed (c : InMemoryCache) (e' : entry) (k : string) :
  wf c →
  lookup_entry (pushed c e') k
  = if decide (k = key e') then Some e' else lookup_entry c k.
Proof.
  intros Hwf. unfold lookup_entry. simpl.
  destruct (decide (k = key e')) as [->|Hne].
  - rewrite lookup_insert_eq. simpl. apply lookup_insert_eq.
  - rewrite lookup_insert_ne by done.
    destruct (cache c !! k) as [el'|] eqn:Hc'; [|done]. simpl.
    rewrite lookup_insert_ne; [done|]. intros Heq.
    apply (fresh_not_listed c Hwf). rewrite Heq.
    by destruct (wf_map c Hwf k el' Hc').
Qed.

Lemma NoDup_keys (c : InMemoryCache) : wf c → NoDup (keys c).
Proof.
  intros Hwf. unfold keys, entries.
  pose proof (wf_nodup c Hwf) as Hnd.
  assert (lruList c ⊆ lruList c) as Hsub by done.
  revert Hnd Hsub. generalize (lruList c) at 1 2 4 as l.
  induction l as [|x l IH]; intros Hnd Hsub; [constructor|].
  apply NoDup_cons in Hnd as [Hx Hnd].
  assert (x ∈ lruList c) as Hxin by (apply Hsub; by left).
  assert (l ⊆ lruList c) as Hl by (intros y Hy; apply Hsub; by right).
  destruct (wf_list c Hwf x Hxin) as (ex & Hex & _).
  csimpl. rewrite Hex. csimpl. apply NoDup_cons. split; [|by apply IH].
  intros (e2 & Hk & (y & Hy & He2)%list_elem_of_omap)%list_elem_of_fmap.
  apply Hx. assert (x = y) as ->; [|done].
  eapply wf_key_inj; eauto.
Qed.

Lemma filter_key_absent (k : string) (es : list entry) :
  k ∉ key <$> es → filter (λ e, key e ≠ k) es = es.
Proof.
  induction es as [|e es IH]; intros Hn; [done|].
  csimpl in Hn. apply not_elem_of_cons in Hn as [Hne Hn].
  rewrite filter_cons_True by done. by rewrite IH.
Qed.

(** *** Get *)

Lemma Get_expired_entry (c : InMemoryCache) (k : string) (now : Z)
    (e : entry) :
  wf c → lookup_entry c k = Some e → ttl e ≤ now →
  ∃ c', Get c k now = Some (c', (ANil, key_not_found)) ∧
        cache c' !! k = None ∧
        S (size (cache c')) = size (cache c) ∧
        entries c' = filter (λ e', key e' ≠ k) (entries c) ∧
        wf c'.
Proof.
  intros Hwf (el & Hc & He & Hin & Hk)%wf_lookup_entry Hexp; [|done].
  exists (removed c el e). split_and!.
  - by apply Get_expired.
  - simpl. rewrite Hk. apply lookup_delete_eq.
  - by apply removed_size.
  - rewrite <- Hk. by apply entries_removed.
  - by apply wf_removed.
Qed.

Lemma Get_live_entry (c : InMemoryCache) (k : string) (now : Z)
    (e : entry) :
  wf c → lookup_entry c k = Some e → now < ttl e →
  ∃ c', Get c k now = Some (c', (value e, None)) ∧
        lookup_entry c' k = Some e ∧
        entries c' = e :: filter (λ e', key e' ≠ k) (entries c) ∧
        size (cache c') = size (cache c) ∧
        wf c'.
Proof.
  intros Hwf Hl Hlive.
  pose proof Hl as (el & Hc & He & Hin & Hk)%wf_lookup_entry; [|done].
  exists (touched c el). split_and!.
  - by apply Get_live.
  - by rewrite lookup_entry_touched.
  - rewrite <- Hk. by apply entries_touched.
  - done.
  - by apply wf_touched.
Qed.

(** C3.  [Get] on a well-formed state: an absent key is reported
    not-found and nothing changes; a resident entry with [ttl e ≤ now] is
    removed (the map loses exactly that key and shrinks by one) and
    not-found is reported; otherwise the stored value is returned, the
    entry itself is unchanged and moves to the front of the recency
    order, all other entries keeping their relative order. *)
Theorem Get_spec (c : InMemoryCache) (k : string) (now : Z) :
  wf c →
  (cache c !! k = None →
     Get c k now = Some (c, (ANil, key_not_found))) ∧
  (∀ e, lookup_entry c k = Some e → ttl e ≤ now →
     ∃ c', Get c k now = Some (c', (ANil, key_not_found)) ∧
           cache c' !! k = None ∧
           S (size (cache c')) = size (cache c) ∧
           entries c' = filter (λ e', key e' ≠ k) (entries c) ∧
           wf c') ∧
  (∀ e, lookup_entry c k = Some e → now < ttl e →
     ∃ c', Get c k now = Some (c', (value e, None)) ∧
           lookup_entry c' k = Some e ∧
           entries c' = e :: filter (λ e', key e' ≠ k) (entries c) ∧
           size (cache c') = size (cache c) ∧
           wf c').
Proof.
  intros Hwf. split_and!.
  - apply Get_absent.
  - intros e. by apply Get_expired_entry.
  - intros e. by apply Get_live_entry.
Qed.

(** *** Set on a resident key *)

(** C4.  [Set] on a key that is resident rewrites its entry to the new
    value and to the expiry [now + d], moves it to the front, keeps the
    number of entries, and leaves every other key's entry and the
    relative order of the other entries as they were. *)
Theorem Set_overwrite (c : InMemoryCache) (k : string) (v : any)
    (d now : Z) (e : entry) :
  wf c → lookup_entry c k = Some e →
  let e' := {| key := k; value := v; ttl := now + d |} in
  ∃ c', Set_ c k v d now = Some (c', None) ∧
        lookup_entry c' k = Some e' ∧
        entries c' = e' :: filter (λ e0, key e0 ≠ k) (entries c) ∧
        size (cache c') = size (cache c) ∧
        (∀ k', k' ≠ k → lookup_entry c' k' = lookup_entry c k') ∧
        wf c'.
Proof.
  intros Hwf (el & Hc & He & Hin & Hk)%wf_lookup_entry e'; [|done].
  exists (updated c el e').
  assert (key e' = key e) as Hk' by done.
  split_and!.
  - rewrite (Set_existing c k v d now el e Hc He). by rewrite Hk.
  - rewrite (lookup_entry_updated c el e e' k) by done.
    by rewrite decide_True.
  - by rewrite (entries_updated c el e e').
  - done.
  - intros k' Hne. rewrite (lookup_entry_updated c el e e' k') by done.
    by rewrite decide_False.
  - by apply (wf_updated c el e e').
Qed.

(** *** Delete *)

(** C6.  [Delete] of a resident key removes its map entry and its list
    element and returns [nil]; [Delete] of an absent key returns the
    not-found error and the state it was given. *)
Theorem Delete_spec (c : InMemoryCache) (k : string) :
  wf c →
  (∀ el, cache c !! k = Some el →
     ∃ c', Delete c k = Some (c', None) ∧
           cache c' = delete k (cache c) ∧
           lruList c' = Remove (lruList c) el ∧
           (el ∈ lruList c) ∧ (el ∉ lruList c') ∧
           S (size (cache c')) = size (cache c) ∧
           entries c' = filter (λ e', key e' ≠ k) (entries c) ∧
           (k ∉ keys c') ∧
           wf c') ∧
  (cache c !! k = None → Delete c k = Some (c, key_not_found)).
Proof.
  intros Hwf. split; [|apply Delete_absent].
  intros el Hc. destruct (wf_map c Hwf k el Hc) as (Hin & e & He & Hk).
  pose proof (wf_removed c el e Hwf Hin He) as Hwf'.
  exists (removed c el e). split_and!.
  - by apply Delete_present.
  - simpl. by rewrite Hk.
  - done.
  - done.
  - simpl. rewrite elem_of_Remove. tauto.
  - by apply removed_size.
  - rewrite <- Hk. by apply entries_removed.
  - rewrite elem_of_keys by done. simpl. rewrite Hk, lookup_delete_eq.
    by intros [? ?].
  - done.
Qed.

(** *** Set never fails *)

(** C7.  On every well-formed state and for every key, value and
    duration (non-negative or not), [Set] returns [nil]; and whatever
    the state, a [Set] that returns does not return an error, so the
    not-found error can only come from [Get] and [Delete]. *)
Theorem Set_no_error :
  (∀ c k v d now, wf c → ∃ c', Set_ c k v d now = Some (c', None)) ∧
  (∀ c k v d now c' err, Set_ c k v d now = Some (c', err) → err = None).
Proof.
  split.
  - intros c k v d now Hwf.
    destruct (Set_total c k v d now Hwf) as (c' & HS & _). eauto.
  - intros c k v d now c' err. unfold Set_.
    destruct (cache c !! k) as [el|].
    + destruct (heap c !! el); simpl; [|done]. by intros [= _ <-].
    + destruct (if bool_decide _ then _ else _); simpl; [|done].
      by intros [= _ <-].
Qed.

Lemma Set_no_error_witness :
  wf (NewInMemoryCache 3) ∧
  ∃ c', Set_ (NewInMemoryCache 3) "a" (AInt 1) 10 0 = Some (c', None).
Proof.
  split; [apply wf_New|].
  apply (proj1 Set_no_error (NewInMemoryCache 3)), wf_New.
Defined.
(** *** Operations on other keys *)

Lemma Get_cases (c : InMemoryCache) (k : string) (now : Z) :
  wf c →
  (cache c !! k = None ∧ Get c k now = Some (c, (ANil, key_not_found)))
  ∨ (∃ el e, cache c !! k = Some el ∧ heap c !! el = Some e ∧
             el ∈ lruList c ∧ key e = k ∧
             ((now < ttl e ∧
               Get c k now = Some (touched c el, (value e, None)))
              ∨ (ttl e ≤ now ∧
                 Get c k now
                 = Some (removed c el e, (ANil, key_not_found))))).
Proof.
  intros Hwf. destruct (cache c !! k) as [el|] eqn:Hc.
  - right. destruct (wf_map c Hwf k el Hc) as (Hin & e & He & Hk).
    exists el, e. split_and!; [done..|].
    destruct (decide (now < ttl e)).
    + left. split; [done|]. by apply Get_live.
    + right. split; [lia|]. apply Get_expired; [done..|lia].
  - left. split; [done|]. by apply Get_absent.
Qed.

Lemma Delete_cases (c : InMemoryCache) (k : string) :
  wf c →
  (cache c !! k = None ∧ Delete c k = Some (c, key_not_found))
  ∨ (∃ el e, cache c !! k = Some el ∧ heap c !! el = Some e ∧
             el ∈ lruList c ∧ key e = k ∧
             Delete c k = Some (removed c el e, None)).
Proof.
  intros Hwf. destruct (cache c !! k) as [el|] eqn:Hc.
  - right. destruct (wf_map c Hwf k el Hc) as (Hin & e & He & Hk).
    exists el, e. split_and!; [done..|]. by apply Delete_present.
  - left. split; [done|]. by apply Delete_absent.
Qed.

(** A request that is not a [Set] of [k] leaves what [k] resolves to as
    it was, or removes it. *)
Lemma step_other_key (c c' : InMemoryCache) (o : op) (now : Z)
    (k : string) :
  wf c → sets_key k o = false → step c o now = Some c' →
  lookup_entry c' k = lookup_entry c k ∨ lookup_entry c' k = None.
Proof.
  intros Hwf Hk Hstep. destruct o as [k' v d|k'|k']; simpl in *.
  - apply bool_decide_eq_false in Hk.
    destruct (Set_cases c k' v d now Hwf)
      as [(el & e & Hc & He & Hin & Hke & HS)
         |[(Hc & Hlt & HS)
          |[(Hc & Hle & Hl & HS)
           |(Hc & Hle & l & el & e & Hl & He & Hin & HS)]]];
      rewrite HS in Hstep; simpl in Hstep; simplify_eq.
    + left. rewrite (lookup_entry_updated c el e) by done.
      rewrite decide_False; [done|]. simpl. congruence.
    + left. rewrite lookup_entry_pushed by done.
      rewrite decide_False; [done|]. simpl. congruence.
    + left. rewrite lookup_entry_pushed by done.
      rewrite decide_False; [done|]. simpl. congruence.
    + rewrite lookup_entry_pushed by (by apply wf_removed).
      rewrite decide_False by (simpl; congruence).
      rewrite lookup_entry_removed. case_decide; auto.
  - destruct (Get_cases c k' now Hwf)
      as [[Hc HG]|(el & e & Hc & He & Hin & Hke & [[Hlt HG]|[Hle HG]])];
      rewrite HG in Hstep; simpl in Hstep; simplify_eq.
    + by left.
    + by left.
    + rewrite lookup_entry_removed. case_decide; auto.
  - destruct (Delete_cases c k' Hwf)
      as [[Hc HD]|(el & e & Hc & He & Hin & Hke & HD)];
      rewrite HD in Hstep; simpl in Hstep; simplify_eq.
    + by left.
    + rewrite lookup_entry_removed. case_decide; auto.
Qed.

Lemma run_stale (c c' : InMemoryCache) (ops : list (op * Z))
    (k : string) (t : Z) :
  wf c → stale c k t →
  Forall (λ p, sets_key k p.1 = false) ops →
  run c ops = Some c' → stale c' k t.
Proof.
  revert c. induction ops as [|[o now] ops IH]; intros c Hwf Hst Hops Hrun.
  - simpl in Hrun. by simplify_eq.
  - apply Forall_cons in Hops as [Ho Hops]. simpl in *.
    destruct (step_total c o now Hwf) as (c1 & Hs & Hwf1 & _).
    rewrite Hs in Hrun. simpl in Hrun.
    apply (IH c1); [done| |done..].
    intros e He.
    destruct (step_other_key c c1 o now k Hwf Ho Hs) as [Heq|Heq];
      rewrite Heq in He; [by apply Hst|done].
Qed.

Lemma stale_mono (c : InMemoryCache) (k : string) (t t' : Z) :
  stale c k t → t ≤ t' → stale c k t'.
Proof. intros Hst Hle e He. specialize (Hst e He). lia. Qed.

Lemma Set_lookup (c : InMemoryCache) (k : string) (v : any) (d now : Z) :
  wf c →
  ∃ c', Set_ c k v d now = Some (c', None) ∧ wf c' ∧
        lookup_entry c' k
        = Some {| key := k; value := v; ttl := now + d |}.
Proof.
  intros Hwf.
  destruct (Set_cases c k v d now Hwf)
    as [(el & e & Hc & He & Hin & Hk & ->)
       |[(Hc & Hlt & ->)
        |[(Hc & Hle & Hl & ->)
         |(Hc & Hle & l & el & e & Hl & He & Hin & ->)]]];
    eexists; (split; [reflexivity|]).
  - split; [by eapply wf_updated|].
    rewrite (lookup_entry_updated c el e) by done. by rewrite decide_True.
  - split; [by apply wf_pushed|].
    rewrite lookup_entry_pushed by done. by rewrite decide_True.
  - split; [by apply wf_pushed|].
    rewrite lookup_entry_pushed by done. by rewrite decide_True.
  - pose proof (wf_removed c el e Hwf Hin He) as Hwf'.
    split; [apply wf_pushed; [done|by apply removed_absent]|].
    rewrite lookup_entry_pushed by done. by rewrite decide_True.
Qed.

(** *** A zero TTL *)

Lemma Get_stale_removes (c : InMemoryCache) (k : string) (t : Z) :
  wf c → stale c k t →
  ∃ c', Get c k t = Some (c', (ANil, key_not_found)) ∧
        cache c' !! k = None ∧
        (k ∉ keys c') ∧
        entries c' = filter (λ e, key e ≠ k) (entries c) ∧
        lruList c'
        = match cache c !! k with
          | Some el => Remove (lruList c) el
          | None => lruList c
          end ∧
        wf c'.
Proof.
  intros Hwf Hst.
  assert (∃ c', Get c k t = Some (c', (ANil, key_not_found)) ∧
                cache c' !! k = None ∧
                entries c' = filter (λ e, key e ≠ k) (entries c) ∧
                lruList c'
                = match cache c !! k with
                  | Some el => Remove (lruList c) el
                  | None => lruList c
                  end ∧
                wf c') as (c' & HG & Hc' & Hes & Hl & Hwf').
  { destruct (Get_cases c k t Hwf)
      as [[Hc HG]|(el & e & Hc & He & Hin & Hke & [[Hlt HG]|[Hle HG]])].
    - exists c. split_and!; [done..| |by rewrite Hc|done].
      symmetry. apply filter_key_absent. fold (keys c).
      rewrite elem_of_keys by done. rewrite Hc. by intros [? ?].
    - assert (ttl e ≤ t); [|lia]. apply Hst.
      unfold lookup_entry. by rewrite Hc.
    - exists (removed c el e). split_and!; [done| | | |].
      + simpl. rewrite Hke. apply lookup_delete_eq.
      + rewrite <- Hke. by apply entries_removed.
      + by rewrite Hc.
      + by apply wf_removed. }
  exists c'. split_and!; [done..| |done|done|done].
  rewrite elem_of_keys by done. rewrite Hc'. by intros [? ?].
Qed.

(** C5.  A [Set] with duration zero stores an entry whose expiry is the
    instant of the write; the key is resident -- in the map and in the
    recency list -- and counted in the size.  A [Get] of the key at that
    instant or later reports not-found and removes the entry: the key
    leaves the map, its element leaves the list, the other entries stay
    in their order, and map and list are one entry shorter.  The same
    holds after any requests that do not [Set] the key again: the [Get]
    reports not-found and afterwards neither the map nor the recency
    order holds the key. *)
Theorem zero_ttl_unobservable (c : InMemoryCache) (k : string) (v : any)
    (now : Z) :
  wf c →
  ∃ c1, Set_ c k v 0 now = Some (c1, None) ∧
        lookup_entry c1 k = Some {| key := k; value := v; ttl := now |} ∧
        (k ∈ keys c1) ∧
        (∀ t, now ≤ t →
           ∃ c3 el,
             Get c1 k t = Some (c3, (ANil, key_not_found)) ∧
             cache c1 !! k = Some el ∧ (el ∈ lruList c1) ∧
             cache c3 !! k = None ∧
             lruList c3 = Remove (lruList c1) el ∧ (el ∉ lruList c3) ∧
             (k ∉ keys c3) ∧
             entries c3 = filter (λ e, key e ≠ k) (entries c1) ∧
             S (size (cache c3)) = size (cache c1) ∧
             S (length (entries c3)) = length (entries c1)) ∧
        (∀ ops c2 t,
           Forall (λ p, sets_key k p.1 = false) ops →
           run c1 ops = Some c2 → now ≤ t →
           ∃ c3, Get c2 k t = Some (c3, (ANil, key_not_found)) ∧
                 cache c3 !! k = None ∧
                 (k ∉ keys c3) ∧
                 entries c3 = filter (λ e, key e ≠ k) (entries c2) ∧
                 lruList c3
                 = match cache c2 !! k with
                   | Some el => Remove (lruList c2) el
                   | None => lruList c2
                   end).
Proof.
  intros Hwf.
  destruct (Set_lookup c k v 0 now Hwf) as (c1 & HS & Hwf1 & Hl).
  rewrite Z.add_0_r in Hl. exists c1.
  assert (stale c1 k now) as Hst.
  { intros e He. rewrite Hl in He. simplify_eq. simpl. lia. }
  pose proof Hl as (el & Hc & He & Hin & _)%wf_lookup_entry; [|done].
  split_and!; [done|done| | |].
  - apply elem_of_keys; [done|]. eauto.
  - intros t Ht.
    destruct (Get_stale_removes c1 k t Hwf1)
      as (c3 & HG & Hc3 & Hk3 & Hes & Hl3 & Hwf3).
    { by eapply stale_mono. }
    rewrite Hc in Hl3.
    assert (S (size (cache c3)) = size (cache c1)) as Hsz.
    { rewrite (wf_size c3 Hwf3), (wf_size c1 Hwf1), Hl3.
      apply Remove_length; [apply Hwf1|done]. }
    exists c3, el. split_and!; [done..| |done|done|done|].
    + rewrite Hl3, elem_of_Remove. tauto.
    + by rewrite !entries_length.
  - intros ops c2 t Hops Hrun Ht.
    destruct (Get_stale_removes c2 k t)
      as (c3 & HG & Hc3 & Hk3 & Hes & Hl3 & _).
    { by eapply run_wf. }
    { eapply stale_mono; [|done]. by eapply run_stale. }
    by exists c3.
Qed.

(** *** Eviction *)

Lemma evicted_keys_alt (c c' : InMemoryCache) :
  wf c' → evicted_keys c c' = filter (λ k, k ∉ keys c') (keys c).
Proof.
  intros Hwf. unfold evicted_keys. apply list_filter_iff. intros k.
  rewrite elem_of_keys by done. rewrite <- eq_None_not_Some. done.
Qed.

Lemma filter_not_elem_of_nil (l l' : list string) :
  l ⊆ l' → filter (λ k, k ∉ l') l = [].
Proof.
  induction l as [|x l IH]; intros Hsub; [done|].
  rewrite filter_cons_False.
  - apply IH. intros y Hy. apply Hsub. by right.
  - intros Hx. apply Hx, Hsub. by left.
Qed.

Lemma filter_not_elem_of_back (ks : list string) (kt knew : string) :
  NoDup (ks ++ [kt]) → kt ≠ knew →
  filter (λ k, k ∉ knew :: ks) (ks ++ [kt]) = [kt].
Proof.
  intros (_ & Hkt & _)%NoDup_app Hne. rewrite filter_app.
  rewrite filter_not_elem_of_nil by (intros y Hy; by right).
  rewrite filter_cons_True; [done|].
  intros [->|Hin]%elem_of_cons; [done|].
  apply (Hkt kt Hin). by left.
Qed.

(** A [Set] of a new key at capacity drops the back entry, and only it. *)
Lemma Set_full_evicts (c : InMemoryCache) (k : string) (v : any)
    (d now : Z) :
  wf c → lruList c ≠ [] → cache c !! k = None →
  maxSize c ≤ Z.of_nat (size (cache c)) →
  ∃ c' es e,
    Set_ c k v d now = Some (c', None) ∧
    entries c = es ++ [e] ∧
    entries c' = {| key := k; value := v; ttl := now + d |} :: es ∧
    evicted_keys c c' = [key e] ∧
    size (cache c') = size (cache c) ∧
    wf c'.
Proof.
  intros Hwf Hpos Hk Hfull.
  destruct (Set_cases c k v d now Hwf)
    as [(el & e & Hc & _)
       |[(Hc & Hlt & _)
        |[(Hc & Hle & Hl & _)
         |(Hc & Hle & l & el & e & Hl & He & Hin & HS)]]].
  - congruence.
  - lia.
  - done.
  - pose proof (wf_removed c el e Hwf Hin He) as Hwf'.
    pose proof (removed_absent c el e k Hwf Hin He Hc) as Hc'.
    set (e' := {| key := k; value := v; ttl := now + d |}) in *.
    assert (wf (pushed (removed c el e) e')) as Hwf''
      by (by apply wf_pushed).
    pose proof (entries_removed_back c l el e Hwf Hl He) as Hes.
    exists (pushed (removed c el e) e'), (entries (removed c el e)), e.
    split_and!; [done|done|by apply entries_pushed| | |done].
    + rewrite evicted_keys_alt by done. unfold keys.
      rewrite entries_pushed by done. rewrite Hes.
      rewrite fmap_app. csimpl.
      apply filter_not_elem_of_back.
      * pose proof (NoDup_keys c Hwf) as Hnd. unfold keys in Hnd.
        by rewrite Hes, fmap_app in Hnd.
      * destruct (wf_list c Hwf el Hin) as (e0 & ? & ?). simplify_eq.
        intros Heq. congruence.
    + rewrite pushed_size by done. by apply removed_size.
Qed.

(** Distinct new keys that fit are inserted front to front. *)
Lemma run_puts (ps : list put) (c : InMemoryCache) :
  wf c → NoDup (put_key <$> ps) →
  (∀ k, k ∈ put_key <$> ps → cache c !! k = None) →
  Z.of_nat (size (cache c)) + Z.of_nat (length ps) ≤ maxSize c →
  ∃ c', run c (put_op <$> ps) = Some c' ∧ wf c' ∧
        maxSize c' = maxSize c ∧
        entries c' = reverse (put_entry <$> ps) ++ entries c.
Proof.
  revert c. induction ps as [|p ps IH]; intros c Hwf Hnd Hnew Hfit.
  - exists c. by split_and!.
  - csimpl in *. apply NoDup_cons in Hnd as [Hp Hnd].
    assert (cache c !! put_key p = None) as Hc by (apply Hnew; by left).
    rewrite Set_new_room by (done || lia). simpl.
    set (e' := {| key := put_key p; value := put_value p;
                  ttl := put_at p + put_ttl p |}).
    assert (wf (pushed c e')) as Hwf' by (by apply wf_pushed).
    destruct (IH (pushed c e')) as (c' & Hrun & Hwf'' & Hmax & Hes).
    + done.
    + done.
    + intros k Hk. apply (lookup_entry_None _ _ Hwf').
      rewrite lookup_entry_pushed by done.
      rewrite decide_False by (simpl; congruence).
      apply lookup_entry_None; [done|]. apply Hnew. by right.
    + rewrite pushed_size by done. simpl. lia.
    + exists c'. split_and!; [done..|].
      rewrite Hes, entries_pushed by done.
      rewrite reverse_cons, <- app_assoc. done.
Qed.

Lemma filter_key_front (e1 : entry) (es : list entry) :
  NoDup (key <$> (es ++ [e1])) →
  filter (λ e, key e ≠ key e1) (es ++ [e1]) = es.
Proof.
  rewrite fmap_app. intros (_ & Hd & _)%NoDup_app.
  rewrite filter_app, filter_cons_False by tauto.
  rewrite filter_nil, app_nil_r. apply filter_key_absent.
  intros Hin. apply (Hd _ Hin). by left.
Qed.

Lemma fmap_key_put_entry (ps : list put) :
  key <$> (put_entry <$> ps) = put_key <$> ps.
Proof. induction ps as [|p ps IH]; [done|]. csimpl. by rewrite IH. Qed.

Lemma Get_maxSize (c c' : InMemoryCache) (k : string) (now : Z)
    (r : any * error) :
  Get c k now = Some (c', r) → maxSize c' = maxSize c.
Proof.
  unfold Get. destruct (cache c !! k) as [el|]; [|by intros [= <- _]].
  unfold removeElement. destruct (heap c !! el) as [e|]; simpl; [|done].
  case_bool_decide; by intros [= <- _].
Qed.

(** The LRU scenario for a capacity of at least two: fill the cache with
    [p1], [p2], [ps], read [p1]'s key while it is live, insert [pn]. *)
Lemma lru_scenario (p1 p2 pn : put) (ps : list put) (tg : Z) :
  let all := p1 :: p2 :: ps in
  NoDup (put_key <$> (all ++ [pn])) →
  tg < put_at p1 + put_ttl p1 →
  ∃ c1 c2 c3,
    run (NewInMemoryCache (Z.of_nat (length all))) (put_op <$> all)
      = Some c1 ∧
    Get c1 (put_key p1) tg = Some (c2, (put_value p1, None)) ∧
    Set_ c2 (put_key pn) (put_value pn) (put_ttl pn) (put_at pn)
      = Some (c3, None) ∧
    keys c2
      = put_key p1 :: reverse (put_key <$> ps) ++ [put_key p2] ∧
    keys c3
      = put_key pn :: put_key p1 :: reverse (put_key <$> ps) ∧
    evicted_keys c2 c3 = [put_key p2].
Proof.
  intros all Hnd Hlive.
  rewrite fmap_app in Hnd. apply NoDup_app in Hnd as (Hnd & Hpn & _).
  destruct (run_puts all (NewInMemoryCache (Z.of_nat (length all))))
    as (c1 & Hrun & Hwf1 & Hmax1 & Hes1).
  { apply wf_New. }
  { done. }
  { intros k _. apply lookup_empty. }
  { simpl. rewrite map_size_empty. lia. }
  simpl in Hes1.
  rewrite app_nil_r, !reverse_cons in Hes1.
  change (list_fmap put entry put_entry ps) with (put_entry <$> ps) in Hes1.
  set (es := reverse (put_entry <$> ps) ++ [put_entry p2]) in *.
  assert (NoDup (key <$> es ++ [put_entry p1])) as Hnd1.
  { rewrite <- Hes1. by apply NoDup_keys. }
  assert (lookup_entry c1 (put_key p1) = Some (put_entry p1)) as Hl1.
  { apply (elem_of_entries c1 (put_entry p1) Hwf1).
    rewrite Hes1. apply elem_of_app. right. by left. }
  destruct (Get_live_entry c1 (put_key p1) tg _ Hwf1 Hl1 Hlive)
    as (c2 & HG & _ & Hes2 & Hsz2 & Hwf2).
  rewrite Hes1 in Hes2.
  change (put_key p1) with (key (put_entry p1)) in Hes2 at 1.
  rewrite filter_key_front in Hes2 by done.
  assert (maxSize c2 = Z.of_nat (length all)) as Hmax2.
  { by rewrite (Get_maxSize _ _ _ _ _ HG), Hmax1. }
  assert (size (cache c2) = length all) as Hfull.
  { rewrite Hsz2, <- (entries_length c1 Hwf1), Hes1.
    unfold es. rewrite !length_app, length_reverse, length_fmap.
    simpl. lia. }
  assert (cache c2 !! put_key pn = None) as Hnew.
  { apply eq_None_not_Some. rewrite <- (elem_of_keys c2) by done.
    unfold keys. rewrite Hes2. unfold es. csimpl.
    rewrite fmap_app, fmap_reverse, fmap_key_put_entry. csimpl.
    intros Hin. apply (Hpn (put_key pn)); [|by left].
    unfold all. csimpl.
    apply elem_of_cons in Hin as [->|Hin]; [by left|].
    apply elem_of_app in Hin as [Hin|Hin].
    - rewrite elem_of_reverse in Hin. by do 2 right.
    - apply list_elem_of_singleton in Hin as ->. right. by left. }
  destruct (Set_full_evicts c2 (put_key pn) (put_value pn) (put_ttl pn)
              (put_at pn) Hwf2)
    as (c3 & es' & e & HS & Hsplit & Hes3 & Hev & _ & Hwf3);
    [|done|lia|].
  { intros Hl. pose proof (wf_empty_list c2 Hwf2 Hl). simpl in *. lia. }
  rewrite Hes2 in Hsplit. unfold es in Hsplit.
  rewrite app_comm_cons in Hsplit.
  apply app_inj_tail in Hsplit as [<- <-].
  exists c1, c2, c3. split_and!; [done..| | |done].
  - unfold keys. rewrite Hes2. unfold es. csimpl.
    by rewrite fmap_app, fmap_reverse, fmap_key_put_entry.
  - unfold keys. rewrite Hes3. csimpl.
    by rewrite fmap_reverse, fmap_key_put_entry.
Qed.
(** C2 (amended).  On a well-formed cache of positive capacity that is
    full, a [Set] of a key that is not resident removes exactly the entry
    at the back of the recency order -- whatever its expiry -- and puts
    the new entry at the front; the size is unchanged.  In particular,
    for a capacity of at least two: after inserting distinct keys
    [k1, k2, ...] up to capacity, reading [k1] while it is live and
    inserting one more distinct key, the only key evicted is [k2]. *)
Theorem Set_evicts_back :
  (∀ c k v d now,
     wf c → 0 < maxSize c → cache c !! k = None →
     maxSize c ≤ Z.of_nat (size (cache c)) →
     ∃ c' es e,
       Set_ c k v d now = Some (c', None) ∧
       entries c = es ++ [e] ∧
       entries c' = {| key := k; value := v; ttl := now + d |} :: es ∧
       evicted_keys c c' = [key e] ∧
       size (cache c') = size (cache c)) ∧
  (∀ p1 p2 pn ps tg,
     NoDup (put_key <$> (p1 :: p2 :: ps) ++ [pn]) →
     tg < put_at p1 + put_ttl p1 →
     ∃ c1 c2 c3,
       run (NewInMemoryCache (Z.of_nat (length (p1 :: p2 :: ps))))
         (put_op <$> p1 :: p2 :: ps) = Some c1 ∧
       Get c1 (put_key p1) tg = Some (c2, (put_value p1, None)) ∧
       Set_ c2 (put_key pn) (put_value pn) (put_ttl pn) (put_at pn)
         = Some (c3, None) ∧
       keys c2
         = put_key p1 :: reverse (put_key <$> ps) ++ [put_key p2] ∧
       keys c3
         = put_key pn :: put_key p1 :: reverse (put_key <$> ps) ∧
       evicted_keys c2 c3 = [put_key p2]).
Proof.
  split.
  - intros c k v d now Hwf Hpos Hk Hfull.
    destruct (Set_full_evicts c k v d now Hwf)
      as (c' & es & e & HS & Hes & Hes' & Hev & Hsz & _); [|done..|].
    { intros Hl. rewrite (wf_empty_list c Hwf Hl) in Hfull. lia. }
    by exists c', es, e.
  - intros p1 p2 pn ps tg. apply lru_scenario.
Qed.

Lemma Set_evicts_back_witness :
  let p1 := Put "k1" (AInt 1) 100 0 in
  let p2 := Put "k2" (AInt 2) 100 1 in
  let p3 := Put "k3" (AInt 3) 100 2 in
  let pn := Put "k4" (AInt 4) 100 4 in
  NoDup (put_key <$> [p1; p2; p3] ++ [pn]) ∧ 3 < put_at p1 + put_ttl p1 ∧
  ∃ c1 c2 c3,
    run (NewInMemoryCache 3) (put_op <$> [p1; p2; p3]) = Some c1 ∧
    Get c1 "k1" 3 = Some (c2, (AInt 1, None)) ∧
    Set_ c2 "k4" (AInt 4) 100 4 = Some (c3, None) ∧
    keys c2 = ["k1"; "k3"; "k2"] ∧
    keys c3 = ["k4"; "k1"; "k3"] ∧
    evicted_keys c2 c3 = ["k2"].
Proof.
  intros p1 p2 p3 pn.
  assert (NoDup (put_key <$> [p1; p2; p3] ++ [pn])) as Hnd
    by (subst p1 p2 p3 pn; compute_done).
  assert (3 < put_at p1 + put_ttl p1) as Hlive by (simpl; lia).
  split_and!; [done..|].
  exact (proj2 Set_evicts_back p1 p2 pn [p3] 3 Hnd Hlive).
Defined.

(** With capacity one the scenario evicts [k1], the key that was just
    read, and not [k2], the key being inserted. *)
Lemma lru_scenario_capacity_one :
  ∃ c1 c2 c3,
    run (NewInMemoryCache 1) [(OpSet "k1" (AInt 1) 100, 0)] = Some c1 ∧
    Get c1 "k1" 1 = Some (c2, (AInt 1, None)) ∧
    Set_ c2 "k2" (AInt 2) 100 2 = Some (c3, None) ∧
    evicted_keys c2 c3 = ["k1"] ∧
    evicted_keys c2 c3 ≠ ["k2"].
Proof.
  eexists _, _, _. split_and!.
  - vm_compute. reflexivity.
  - vm_compute. reflexivity.
  - vm_compute. reflexivity.
  - vm_compute. reflexivity.
  - vm_compute. discriminate.
Qed.

(** The two scenarios of the specification, capacity three. *)
Example scenario_fourth_insert_evicts_first :
  ∃ c, run (NewInMemoryCache 3)
         [(OpSet "a" (AInt 1) 3600, 0); (OpSet "b" (AInt 2) 3600, 1);
          (OpSet "c" (AInt 3) 3600, 2); (OpSet "d" (AInt 4) 3600, 3)]
       = Some c ∧
       keys c = ["d"; "c"; "b"] ∧
       Get c "a" 4 = Some (c, (ANil, key_not_found)) ∧
       snd <$> Get c "b" 4 = Some (AInt 2, None) ∧
       snd <$> Get c "c" 4 = Some (AInt 3, None) ∧
       snd <$> Get c "d" 4 = Some (AInt 4, None).
Proof.
  eexists. split; [vm_compute; reflexivity|].
  split_and!; compute_done.
Qed.

Example scenario_expired_entry_vacates_on_read :
  ∃ c1 c2 c3,
    run (NewInMemoryCache 3) [(OpSet "a" (AInt 1) 10, 0)] = Some c1 ∧
    Get c1 "a" 20 = Some (c2, (ANil, key_not_found)) ∧
    keys c2 = [] ∧
    run c2 [(OpSet "b" (AInt 2) 3600, 21); (OpSet "c" (AInt 3) 3600, 22);
            (OpSet "d" (AInt 4) 3600, 23)] = Some c3 ∧
    keys c3 = ["d"; "c"; "b"].
Proof.
  eexists _, _, _. split_and!.
  - vm_compute. reflexivity.
  - vm_compute. reflexivity.
  - compute_done.
  - vm_compute. reflexivity.
  - compute_done.
Qed.

(** *** A non-positive bound *)

(** C9.  With [maxSize ≤ 0] every sequence of requests still runs to
    completion and leaves at most one entry.  In any state so reached, a
    [Set] of a key that is not resident succeeds, evicts whatever was
    resident (nothing when the cache was empty) and leaves exactly the
    new entry, which a [Get] before its expiry then serves. *)
Theorem nonpositive_maxSize_one_entry (n : Z) (ops : list (op * Z)) :
  n ≤ 0 →
  ∃ c, run (NewInMemoryCache n) ops = Some c ∧
       (size (cache c) ≤ 1)%nat ∧
       ∀ k v d now,
         cache c !! k = None →
         ∃ c', Set_ c k v d now = Some (c', None) ∧
               keys c' = [k] ∧
               size (cache c') = 1%nat ∧
               evicted_keys c c' = keys c ∧
               ∀ t, t < now + d →
                    ∃ c'', Get c' k t = Some (c'', (v, None)).
Proof.
  intros Hn.
  destruct (run_bounded 1 ops (NewInMemoryCache n))
    as (c & Hrun & Hwf & Hmax & Hsz);
    [apply wf_New|lia|simpl; lia|simpl; rewrite map_size_empty; lia|].
  simpl in Hmax. exists c. split_and!; [done..|].
  intros k v d now Hk.
  set (e' := {| key := k; value := v; ttl := now + d |}).
  assert (∃ c', Set_ c k v d now = Some (c', None) ∧ wf c' ∧
                entries c' = [e'] ∧ evicted_keys c c' = keys c)
    as (c' & HS & Hwf' & Hes' & Hev).
  { destruct (decide (lruList c = [])) as [Hl|Hl].
    - exists (pushed c e'). split_and!.
      + by apply Set_new_empty.
      + by apply wf_pushed.
      + rewrite entries_pushed by done. unfold entries. by rewrite Hl.
      + unfold evicted_keys, keys, entries. by rewrite Hl.
    - destruct (Set_full_evicts c k v d now Hwf Hl Hk)
        as (c' & es & e & HS & Hes & Hes' & Hev & _ & Hwf'); [lia|].
      assert (es = []) as ->.
      { pose proof (entries_length c Hwf) as Hlen.
        rewrite Hes, length_app in Hlen. simpl in Hlen.
        destruct es; [done|simpl in Hlen; lia]. }
      exists c'. split_and!; [done..|].
      unfold keys. by rewrite Hes. }
  exists c'. split_and!; [done| | |done|].
  - unfold keys. by rewrite Hes'.
  - by rewrite <- (entries_length c' Hwf'), Hes'.
  - intros t Ht.
    assert (lookup_entry c' k = Some e') as Hl.
    { apply (elem_of_entries c' e' Hwf'). rewrite Hes'. by left. }
    destruct (Get_live_entry c' k t e' Hwf' Hl Ht) as (c'' & HG & _).
    by exists c''.
Qed.

Lemma nonpositive_maxSize_one_entry_witness :
  -1 ≤ 0 ∧
  ∃ c, run (NewInMemoryCache (-1))
         [(OpSet "a" (AInt 1) 10, 0); (OpSet "b" (AInt 2) 10, 1)]
       = Some c ∧
       (size (cache c) ≤ 1)%nat ∧
       ∀ k v d now,
         cache c !! k = None →
         ∃ c', Set_ c k v d now = Some (c', None) ∧
               keys c' = [k] ∧
               size (cache c') = 1%nat ∧
               evicted_keys c c' = keys c ∧
               ∀ t, t < now + d →
                    ∃ c'', Get c' k t = Some (c'', (v, None)).
Proof.
  split; [lia|]. apply (nonpositive_maxSize_one_entry (-1)). lia.
Defined.

(** *** The theorems at a concrete state *)

Lemma wf_one_entry (n : Z) (e : entry) :
  wf (pushed (NewInMemoryCache n) e).
Proof. apply wf_pushed; [apply wf_New|apply lookup_empty]. Qed.

Lemma Get_spec_witness :
  let e := {| key := "a"; value := AInt 1; ttl := 10 |} in
  let c := pushed (NewInMemoryCache 3) e in
  wf c ∧ cache c !! "zz" = None ∧ lookup_entry c "a" = Some e ∧
  Get c "zz" 5 = Some (c, (ANil, key_not_found)) ∧
  (∃ c', Get c "a" 10 = Some (c', (ANil, key_not_found)) ∧
         cache c' !! "a" = None ∧
         S (size (cache c')) = size (cache c)) ∧
  (∃ c', Get c "a" 9 = Some (c', (AInt 1, None)) ∧
         lookup_entry c' "a" = Some e).
Proof.
  intros e c.
  assert (wf c) as Hwf by apply wf_one_entry.
  assert (cache c !! "zz" = None) as Hzz by compute_done.
  assert (lookup_entry c "a" = Some e) as Ha by compute_done.
  split_and!; [done..| | |].
  - exact (proj1 (Get_spec c "zz" 5 Hwf) Hzz).
  - destruct (proj1 (proj2 (Get_spec c "a" 10 Hwf)) e Ha)
      as (c' & HG & Hc & Hsz & _); [simpl; lia|].
    exists c'. by split_and!.
  - destruct (proj2 (proj2 (Get_spec c "a" 9 Hwf)) e Ha)
      as (c' & HG & Hl & _); [simpl; lia|].
    exists c'. by split_and!.
Defined.

Lemma Set_overwrite_witness :
  let e := {| key := "a"; value := AInt 1; ttl := 10 |} in
  let c := pushed (pushed (NewInMemoryCache 3)
                     {| key := "b"; value := AInt 2; ttl := 10 |}) e in
  wf c ∧ lookup_entry c "b"
         = Some {| key := "b"; value := AInt 2; ttl := 10 |} ∧
  ∃ c', Set_ c "b" (AStr "x") 5 20 = Some (c', None) ∧
        entries c' = [ {| key := "b"; value := AStr "x"; ttl := 25 |}; e ] ∧
        size (cache c') = size (cache c).
Proof.
  intros e c.
  assert (wf c) as Hwf.
  { apply wf_pushed; [apply wf_one_entry|compute_done]. }
  assert (lookup_entry c "b"
          = Some {| key := "b"; value := AInt 2; ttl := 10 |}) as Hb
    by compute_done.
  split_and!; [done..|].
  destruct (Set_overwrite c "b" (AStr "x") 5 20 _ Hwf Hb)
    as (c' & HS & _ & Hes & Hsz & _).
  exists c'. split_and!; [done| |done].
  rewrite Hes. f_equal.
Defined.

Lemma zero_ttl_unobservable_witness :
  wf (NewInMemoryCache 3) ∧
  ∃ c1, Set_ (NewInMemoryCache 3) "a" (AInt 1) 0 7 = Some (c1, None) ∧
        lookup_entry c1 "a"
        = Some {| key := "a"; value := AInt 1; ttl := 7 |} ∧
        ("a" ∈ keys c1) ∧
        (∀ t, 7 ≤ t →
           ∃ c3 el,
             Get c1 "a" t = Some (c3, (ANil, key_not_found)) ∧
             cache c1 !! "a" = Some el ∧ (el ∈ lruList c1) ∧
             cache c3 !! "a" = None ∧
             lruList c3 = Remove (lruList c1) el ∧ (el ∉ lruList c3) ∧
             ("a" ∉ keys c3) ∧
             entries c3 = filter (λ e, key e ≠ "a"%string) (entries c1) ∧
             S (size (cache c3)) = size (cache c1) ∧
             S (length (entries c3)) = length (entries c1)) ∧
        (∀ ops c2 t,
           Forall (λ p, sets_key "a" p.1 = false) ops →
           run c1 ops = Some c2 → 7 ≤ t →
           ∃ c3, Get c2 "a" t = Some (c3, (ANil, key_not_found)) ∧
                 cache c3 !! "a" = None ∧
                 ("a" ∉ keys c3) ∧
                 entries c3
                 = filter (λ e, key e ≠ "a"%string) (entries c2) ∧
                 lruList c3
                 = match cache c2 !! "a" with
                   | Some el => Remove (lruList c2) el
                   | None => lruList c2
                   end).
Proof.
  split; [apply wf_New|].
  apply (zero_ttl_unobservable (NewInMemoryCache 3) "a" (AInt 1) 7).
  apply wf_New.
Defined.

Example zero_ttl_entry_is_removed :
  ∃ c1 c3,
    Set_ (NewInMemoryCache 3) "a" (AInt 1) 0 7 = Some (c1, None) ∧
    keys c1 = ["a"] ∧ size (cache c1) = 1%nat ∧
    Get c1 "a" 8 = Some (c3, (ANil, key_not_found)) ∧
    keys c3 = [] ∧ lruList c3 = [] ∧ size (cache c3) = 0%nat.
Proof.
  eexists _, _. split_and!.
  - vm_compute. reflexivity.
  - compute_done.
  - compute_done.
  - vm_compute. reflexivity.
  - compute_done.
  - compute_done.
  - compute_done.
Qed.

Lemma Delete_spec_witness :
  let c := pushed (NewInMemoryCache 3)
             {| key := "a"; value := AInt 1; ttl := 10 |} in
  wf c ∧ cache c !! "a" = Some 0%nat ∧ cache c !! "zz" = None ∧
  (∃ c', Delete c "a" = Some (c', None) ∧
         cache c' !! "a" = None ∧ lruList c' = []) ∧
  Delete c "zz" = Some (c, key_not_found).
Proof.
  intros c.
  assert (wf c) as Hwf by apply wf_one_entry.
  assert (cache c !! "a" = Some 0%nat) as Ha by compute_done.
  assert (cache c !! "zz" = None) as Hzz by compute_done.
  split_and!; [done..| |].
  - destruct (proj1 (Delete_spec c "a" Hwf) 0%nat Ha)
      as (c' & HD & Hc & Hl & _).
    exists c'. split_and!; [done| |].
    + rewrite Hc. apply lookup_delete_eq.
    + rewrite Hl. compute_done.
  - exact (proj2 (Delete_spec c "zz" Hwf) Hzz).
Defined.

End LRU_Facts.

(** ** Facts about the two-tier cache *)

Module Tiered_Facts.
Import Tiered.

(** *** The local tier *)

Lemma InMemoryCache_Get_miss (c : InMemoryCache) (k : string) (now : Z) :
  (data c !! k = None
   ∨ ∃ item, data c !! k = Some item ∧
             (TTL item < now ∨ Value item = ANil)) →
  InMemoryCache_Get c k now = (c, (ANil, None)).
Proof.
  unfold InMemoryCache_Get. intros [->|(item & -> & [Hexp|Hnil])]; [done| |].
  - by rewrite bool_decide_eq_true_2.
  - case_bool_decide; [done|]. by rewrite Hnil.
Qed.

Lemma InMemoryCache_Get_hit (c : InMemoryCache) (k : string) (now : Z)
    (item : CacheItem) :
  data c !! k = Some item → ¬ TTL item < now →
  InMemoryCache_Get c k now = (c, (Value item, None)).
Proof.
  unfold InMemoryCache_Get. intros -> Hlive.
  by rewrite bool_decide_eq_false_2.
Qed.

(** *** The composed [Get], over any two tiers *)

Section composition.
Context {L R : Type} `{!Cache L} `{!Cache R} `{!GoLib}.

Lemma UnifiedCache_Get_local (u : UnifiedCache L R) (k : string)
    (now : Z) (l : L) (v : any) :
  Get (InMemory u) k now = (l, (v, None)) → v ≠ ANil →
  UnifiedCache_Get u k now = (Unified l (Redis u), (v, None)).
Proof.
  intros HG Hv. unfold UnifiedCache_Get. rewrite HG.
  by destruct v.
Qed.

Lemma UnifiedCache_Get_remote (u : UnifiedCache L R) (k : string)
    (now : Z) (l : L) (v : any) (err : error) :
  Get (InMemory u) k now = (l, (v, err)) → (v = ANil ∨ err ≠ None) →
  ∃ r raw err',
    Get (Redis u) k now = (r, (raw, err')) ∧
    (UnifiedCache_Get u k now).1 = Unified l r ∧
    (UnifiedCache_Get u k now).2
    = match err' with
      | Some e => (ANil, Some e)
      | None =>
          (match raw with
           | AStr s =>
               match Atoi s with Some n => AInt n | None => AStr s end
           | _ => raw
           end, None)
      end.
Proof.
  intros HG Hmiss. unfold UnifiedCache_Get. rewrite HG.
  destruct (Get (Redis u) k now) as [r [raw err']] eqn:HR.
  exists r, raw, err'. split; [done|].
  destruct err as [e0|], v; try (by destruct Hmiss); simpl;
    (destruct err' as [e1|]; [done|]);
    destruct raw; try done; by destruct (Atoi _).
Qed.
End composition.

(** C8.  In the two-tier cache over the in-memory map and a Redis
    client: a write puts the item in the local map and sends the
    formatted value to the client with the same key and duration; a read
    that finds a live, non-nil item in the local map returns its value
    and leaves both tiers as they were, the client receiving nothing; any
    other read sends exactly one [Get] to the client, returns what it
    answers, and leaves the local map as it was. *)
Theorem two_tier_composition {C : Type} `{!RedisClient C} `{!GoLib}
    (u : UnifiedCache InMemoryCache (RedisCache C)) (k : string) (now : Z) :
  (∀ v d,
     ∃ cl err,
       client_Set (client (Redis u)) k (AStr (Sprintf_v v)) d = (cl, err) ∧
       UnifiedCache_Set u k v d now
       = (Unified
            {| data := <[k := {| Value := v; TTL := now + d |}]>
                         (data (InMemory u)) |}
            (Redis_ cl), err)) ∧
  (∀ item,
     data (InMemory u) !! k = Some item → ¬ TTL item < now →
     Value item ≠ ANil →
     UnifiedCache_Get u k now = (u, (Value item, None))) ∧
  ((data (InMemory u) !! k = None
    ∨ ∃ item, data (InMemory u) !! k = Some item ∧
              (TTL item < now ∨ Value item = ANil)) →
   ∃ cl val err,
     client_Get (client (Redis u)) k = (cl, (val, err)) ∧
     (UnifiedCache_Get u k now).1 = Unified (InMemory u) (Redis_ cl) ∧
     (err = None →
      (UnifiedCache_Get u k now).2
      = (match Atoi val with Some n => AInt n | None => AStr val end,
         None))).
Proof.
  split_and!.
  - intros v d.
    destruct (client_Set (client (Redis u)) k (AStr (Sprintf_v v)) d)
      as [cl err] eqn:HS.
    exists cl, err. split; [done|].
    unfold UnifiedCache_Set. simpl. unfold RedisCache_Set. by rewrite HS.
  - intros item Hk Hlive Hv.
    rewrite (UnifiedCache_Get_local u k now (InMemory u) (Value item)).
    + by destruct u.
    + by apply InMemoryCache_Get_hit.
    + done.
  - intros Hmiss.
    destruct (UnifiedCache_Get_remote u k now (InMemory u) ANil None)
      as (r & raw & err' & HR & Hst & Hres).
    { by apply InMemoryCache_Get_miss. }
    { by left. }
    simpl in HR. unfold RedisCache_Get in HR.
    destruct (client_Get (client (Redis u)) k) as [cl [val err]] eqn:HC.
    exists cl, val, err. split; [done|]. rewrite Hst, Hres.
    destruct err as [[]|]; simplify_eq; [done..|].
    destruct (Atoi val) as [n|] eqn:HA; simplify_eq.
    + done.
    + split; [done|]. intros _. by rewrite HA.
Qed.

Lemma two_tier_composition_witness :
  let lib := sample_lib in
  let u0 := NewUnifiedCache (Recorder ∅ [] false) in
  let u1 := (UnifiedCache_Set u0 "k" (AInt 7) 10 0).1 in
  received (client (Redis u1)) = [CmdSet "k" (AStr "7") 10] ∧
  data (InMemory u1) !! "k" = Some {| Value := AInt 7; TTL := 10 |} ∧
  data (InMemory u1) !! "zz" = None ∧
  UnifiedCache_Get u1 "k" 5 = (u1, (AInt 7, None)) ∧
  (∃ cl val err,
     client_Get (client (Redis u1)) "zz" = (cl, (val, err)) ∧
     received cl = CmdGet "zz" :: received (client (Redis u1)) ∧
     (UnifiedCache_Get u1 "zz" 5).1 = Unified (InMemory u1) (Redis_ cl)).
Proof.
  intros lib u0 u1.
  assert (data (InMemory u1) !! "k" = Some {| Value := AInt 7; TTL := 10 |})
    as Hk by compute_done.
  assert (data (InMemory u1) !! "zz" = None) as Hzz by compute_done.
  split_and!; [compute_done|done|done| |].
  - apply (proj1 (proj2 (two_tier_composition u1 "k" 5)) _ Hk);
      [simpl; lia|done].
  - destruct (proj2 (proj2 (two_tier_composition u1 "zz" 5)))
      as (cl & val & err & HC & Hst & _); [by left|].
    exists cl, val, err. split_and!; [done| |done].
    vm_compute in HC. injection HC as <- _ _. compute_done.
Defined.

(** *** A nil value in the local tier *)

(** C10.  The local tier's [Get] returns a nil value and a nil error for
    an absent key and for an expired one.  Over any two tiers, a composed
    [Get] whose local [Get] returned a nil value goes on to the remote
    tier and returns what that answers.  Hence an item stored with a nil
    value reads, in the local tier, exactly like an absent key, and the
    composed [Get] of its key always asks the client. *)
Theorem local_nil_is_a_miss :
  (∀ (c : InMemoryCache) k now,
     (data c !! k = None
      ∨ ∃ item, data c !! k = Some item ∧ TTL item < now) →
     InMemoryCache_Get c k now = (c, (ANil, None))) ∧
  (∀ (L R : Type) (HL : Cache L) (HR : Cache R) (lib : GoLib)
     (u : UnifiedCache L R) k now l err,
     Get (InMemory u) k now = (l, (ANil, err)) →
     ∃ r raw err',
       Get (Redis u) k now = (r, (raw, err')) ∧
       (UnifiedCache_Get u k now).1 = Unified l r ∧
       (UnifiedCache_Get u k now).2
       = match err' with
         | Some e => (ANil, Some e)
         | None =>
             (match raw with
              | AStr s =>
                  match Atoi s with Some n => AInt n | None => AStr s end
              | _ => raw
              end, None)
         end) ∧
  (∀ (C : Type) (HC : RedisClient C) (lib : GoLib)
     (u : UnifiedCache InMemoryCache (RedisCache C)) k now item,
     data (InMemory u) !! k = Some item → Value item = ANil →
     InMemoryCache_Get (InMemory u) k now = (InMemory u, (ANil, None)) ∧
     (InMemoryCache_Get {| data := delete k (data (InMemory u)) |} k now).2
     = (InMemoryCache_Get (InMemory u) k now).2 ∧
     ∃ cl val err,
       client_Get (client (Redis u)) k = (cl, (val, err)) ∧
       (UnifiedCache_Get u k now).1 = Unified (InMemory u) (Redis_ cl)).
Proof.
  split_and!.
  - intros c k now Hmiss. apply InMemoryCache_Get_miss.
    destruct Hmiss as [?|(item & ? & ?)]; [by left|right]. eauto.
  - intros L R HL HR lib u k now l err HG.
    apply (UnifiedCache_Get_remote u k now l ANil err HG). by left.
  - intros C HC lib u k now item Hk Hnil.
    assert (InMemoryCache_Get (InMemory u) k now
            = (InMemory u, (ANil, None))) as Hloc.
    { apply InMemoryCache_Get_miss. right. eauto. }
    split_and!; [done| |].
    + rewrite Hloc. rewrite InMemoryCache_Get_miss; [done|].
      left. simpl. apply lookup_delete_eq.
    + destruct (UnifiedCache_Get_remote u k now (InMemory u) ANil None)
        as (r & raw & err' & HR & Hst & _); [exact Hloc|by left|].
      simpl in HR. unfold RedisCache_Get in HR.
      destruct (client_Get (client (Redis u)) k) as [cl [val err]] eqn:HG.
      exists cl, val, err. split; [done|]. rewrite Hst.
      destruct err as [[]|]; simplify_eq; [done..|].
      by destruct (Atoi val); simplify_eq.
Qed.

Lemma local_nil_is_a_miss_witness :
  let lib := sample_lib in
  let u0 := NewUnifiedCache (Recorder ∅ [] false) in
  let u1 := (UnifiedCache_Set u0 "k" ANil 10 0).1 in
  data (InMemory u1) !! "k" = Some {| Value := ANil; TTL := 10 |} ∧
  InMemoryCache_Get (InMemory u1) "zz" 5 = (InMemory u1, (ANil, None)) ∧
  InMemoryCache_Get (InMemory u1) "k" 11 = (InMemory u1, (ANil, None)) ∧
  InMemoryCache_Get (InMemory u1) "k" 5 = (InMemory u1, (ANil, None)) ∧
  (∃ cl val err,
     client_Get (client (Redis u1)) "k" = (cl, (val, err)) ∧
     (UnifiedCache_Get u1 "k" 5).1 = Unified (InMemory u1) (Redis_ cl)) ∧
  UnifiedCache_Get u1 "k" 5
  = (Unified (InMemory u1)
       (Redis_ (Recorder {["k" := "<nil>"%string]}
                  [CmdGet "k"; CmdSet "k" (AStr "<nil>") 10] false)),
     (AStr "<nil>", None)).
Proof.
  intros lib u0 u1.
  assert (data (InMemory u1) !! "k" = Some {| Value := ANil; TTL := 10 |})
    as Hk by compute_done.
  assert (data (InMemory u1) !! "zz" = None) as Hzz by compute_done.
  destruct local_nil_is_a_miss as (H1 & H2 & H3).
  split_and!; [done| | | | |compute_done].
  - apply H1. by left.
  - apply H1. right. eexists. split; [exact Hk|simpl; lia].
  - by apply (H3 recorder _ lib u1 "k" 5 _ Hk).
  - by apply (H3 recorder _ lib u1 "k" 5 _ Hk).
Defined.
End Tiered_Facts.

(** ** Further facts about the LRU + TTL engine *)

Module LRU_More.
Import LRU LRU_Facts.

Lemma run_total (ops : list (op * Z)) (c : InMemoryCache) :
  wf c → ∃ c', run c ops = Some c' ∧ wf c' ∧ maxSize c' = maxSize c.
Proof.
  revert c. induction ops as [|[o now] ops IH]; intros c Hwf.
  - by exists c.
  - simpl. destruct (step_total c o now Hwf) as (c1 & -> & Hwf1 & Hm1 & _).
    simpl. destruct (IH c1 Hwf1) as (c' & Hrun & Hwf' & Hm').
    exists c'. split_and!; [done..|congruence].
Qed.

(** X1.  Whatever requests are served from a new cache, no operation
    dereferences a dangling element, the bound is the one the cache was
    built with, and map and list stay in step: the keys in recency order
    are pairwise distinct, they are exactly the keys of the map, and there
    are as many of them as the map has entries. *)
Theorem reachable_consistent (n : Z) (ops : list (op * Z)) :
  ∃ c, run (NewInMemoryCache n) ops = Some c ∧
       maxSize c = n ∧
       NoDup (keys c) ∧
       (∀ k, k ∈ keys c ↔ is_Some (cache c !! k)) ∧
       length (keys c) = size (cache c) ∧
       (∀ k, k ∈ keys c → is_Some (lookup_entry c k)).
Proof.
  destruct (run_total ops (NewInMemoryCache n) (wf_New n))
    as (c & Hrun & Hwf & Hmax).
  exists c. split_and!; [done|done|by apply NoDup_keys| | |].
  - intros k. by apply elem_of_keys.
  - unfold keys. rewrite length_fmap. by apply entries_length.
  - intros k [el Hc]%elem_of_keys; [|done].
    destruct (wf_resident c k el Hwf Hc) as [e He]. eauto.
Qed.

Lemma reachable_consistent_witness :
  ∃ c, run (NewInMemoryCache 2)
         [(OpSet "a" (AInt 1) 10, 0); (OpGet "b", 1)] = Some c ∧
       ("a" ∈ keys c) ∧ is_Some (cache c !! "a") ∧
       is_Some (lookup_entry c "a").
Proof.
  destruct (reachable_consistent 2
              [(OpSet "a" (AInt 1) 10, 0); (OpGet "b", 1)])
    as (c & Hrun & _ & _ & Hdom & _ & Hres).
  exists c.
  assert ("a" ∈ keys c) as Ha.
  { vm_compute in Hrun. injection Hrun as <-. compute_done. }
  split_and!; [done|done|by apply Hdom|by apply Hres].
Defined.

Lemma Set_front (c : InMemoryCache) (k : string) (v : any) (d now : Z) :
  wf c →
  ∃ c' es, Set_ c k v d now = Some (c', None) ∧ wf c' ∧
           maxSize c' = maxSize c ∧
           entries c' = {| key := k; value := v; ttl := now + d |} :: es.
Proof.
  intros Hwf.
  destruct (Set_cases c k v d now Hwf)
    as [(el & e & Hc & He & Hin & Hk & ->)
       |[(Hc & Hlt & ->)
        |[(Hc & Hle & Hl & ->)
         |(Hc & Hle & l & el & e & Hl & He & Hin & ->)]]].
  - eexists _, _. split_and!; [done|by eapply wf_updated|done|].
    by apply (entries_updated c el e).
  - eexists _, _. split_and!; [done|by apply wf_pushed|done|].
    by apply entries_pushed.
  - eexists _, _. split_and!; [done|by apply wf_pushed|done|].
    by apply entries_pushed.
  - pose proof (wf_removed c el e Hwf Hin He) as Hwf'.
    eexists _, _. split_and!; [done| |done|by apply entries_pushed].
    apply wf_pushed; [done|by apply removed_absent].
Qed.

Lemma Set_Get_live (c : InMemoryCache) (k : string) (v : any)
    (d now t : Z) :
  wf c → t < now + d →
  ∃ c1, Set_ c k v d now = Some (c1, None) ∧ wf c1 ∧
        maxSize c1 = maxSize c ∧
        head (keys c1) = Some k ∧
        Get c1 k t = Some (c1, (v, None)).
Proof.
  intros Hwf Ht.
  destruct (Set_front c k v d now Hwf) as (c1 & es & HS & Hwf1 & Hm & Hes).
  set (e' := {| key := k; value := v; ttl := now + d |}) in *.
  exists c1. split_and!; [done..| |].
  - unfold keys. by rewrite Hes.
  - assert (lookup_entry c1 k = Some e') as Hl.
    { apply (elem_of_entries c1 e' Hwf1). rewrite Hes. by left. }
    apply wf_lookup_entry in Hl as (el & Hc & He & Hin & _); [|done].
    rewrite (Get_live c1 k t el e' Hc He Ht). do 2 f_equal.
    pose proof (wf_Forall2 c1 Hwf1) as HF. rewrite Hes in HF.
    destruct (lruList c1) as [|x l] eqn:Hl; [by inversion HF|].
    apply Forall2_cons in HF as [Hx _].
    assert (x = el) as ->.
    { apply (wf_key_inj c1 x el e' e' Hwf1); [|by rewrite Hl|done..].
      rewrite Hl. by left. }
    pose proof (wf_nodup c1 Hwf1) as Hnd. rewrite Hl in Hnd.
    apply NoDup_cons in Hnd as [Hnotin _].
    destruct c1 as [m ca li he]. simpl in *. subst li.
    unfold touched, MoveToFront. simpl.
    rewrite decide_True by (by left). f_equal.
    rewrite filter_cons_False by tauto.
    f_equal. by apply Remove_absent.
Qed.

(** X2.  Read your write: on every well-formed state -- full or not,
    whatever the bound -- a [Set] followed by a [Get] of the same key
    before the expiry [now + d] returns the value just written; the key is
    at the front of the recency order after the [Set], and the [Get]
    changes nothing. *)
Theorem Set_then_Get (c : InMemoryCache) (k : string) (v : any)
    (d now t : Z) :
  wf c → t < now + d →
  ∃ c1, Set_ c k v d now = Some (c1, None) ∧
        head (keys c1) = Some k ∧
        Get c1 k t = Some (c1, (v, None)).
Proof.
  intros Hwf Ht.
  destruct (Set_Get_live c k v d now t Hwf Ht) as (c1 & ? & _ & _ & ? & ?).
  by exists c1.
Qed.

Lemma Set_then_Get_witness :
  wf (NewInMemoryCache 0) ∧ 5 < 0 + 10 ∧
  ∃ c1, Set_ (NewInMemoryCache 0) "a" (AStr "x") 10 0 = Some (c1, None) ∧
        head (keys c1) = Some "a"%string ∧
        Get c1 "a" 5 = Some (c1, (AStr "x", None)).
Proof.
  split; [apply wf_New|]. split; [lia|].
  apply Set_then_Get; [apply wf_New|lia].
Defined.

Lemma run_other_key (ops : list (op * Z)) (c c' : InMemoryCache)
    (k : string) :
  wf c → Forall (λ p, sets_key k p.1 = false) ops →
  run c ops = Some c' →
  lookup_entry c' k = lookup_entry c k ∨ lookup_entry c' k = None.
Proof.
  revert c. induction ops as [|[o now] ops IH]; intros c Hwf Hops Hrun.
  - simpl in Hrun. simplify_eq. by left.
  - apply Forall_cons in Hops as [Ho Hops]. simpl in *.
    destruct (step_total c o now Hwf) as (c1 & Hs & Hwf1 & _).
    rewrite Hs in Hrun. simpl in Hrun.
    destruct (IH c1 Hwf1 Hops Hrun) as [Heq|Heq]; [|by right].
    rewrite Heq. by apply (step_other_key c c1 o now).
Qed.

(** X3.  After a [Delete] the key is gone for good: a [Get] of it reports
    not-found and a second [Delete] reports not-found, both leaving the
    state as it is; and no sequence of later requests brings the key back
    unless one of them is a [Set] of that key. *)
Theorem Delete_is_final (c : InMemoryCache) (k : string) :
  wf c →
  ∃ c1 r, Delete c k = Some (c1, r) ∧
          (∀ t, Get c1 k t = Some (c1, (ANil, key_not_found))) ∧
          Delete c1 k = Some (c1, key_not_found) ∧
          (∀ ops c2,
             Forall (λ p, sets_key k p.1 = false) ops →
             run c1 ops = Some c2 → cache c2 !! k = None).
Proof.
  intros Hwf.
  assert (∃ c1 r, Delete c k = Some (c1, r) ∧ wf c1 ∧ cache c1 !! k = None)
    as (c1 & r & HD & Hwf1 & Hk).
  { destruct (Delete_cases c k Hwf)
      as [[Hc HD]|(el & e & Hc & He & Hin & Hke & HD)].
    - by exists c, key_not_found.
    - exists (removed c el e), None. split_and!; [done| |].
      + by apply wf_removed.
      + simpl. rewrite Hke. apply lookup_delete_eq. }
  exists c1, r. split_and!; [done| | |].
  - intros t. by apply Get_absent.
  - by apply Delete_absent.
  - intros ops c2 Hops Hrun.
    apply (lookup_entry_None c2 k); [by eapply run_wf|].
    destruct (run_other_key ops c1 c2 k Hwf1 Hops Hrun) as [->| ->];
      [|done].
    by apply lookup_entry_None.
Qed.

Lemma Delete_is_final_witness :
  let c := pushed (NewInMemoryCache 3)
             {| key := "a"; value := AInt 1; ttl := 10 |} in
  wf c ∧
  ∃ c1 r, Delete c "a" = Some (c1, r) ∧
          (∀ t, Get c1 "a" t = Some (c1, (ANil, key_not_found))) ∧
          Delete c1 "a" = Some (c1, key_not_found) ∧
          (∀ ops c2,
             Forall (λ p, sets_key "a" p.1 = false) ops →
             run c1 ops = Some c2 → cache c2 !! "a" = None).
Proof.
  intros c. split; [apply wf_one_entry|].
  apply Delete_is_final, wf_one_entry.
Defined.

Lemma filter_key_idemp (k : string) (es : list entry) :
  filter (λ e, key e ≠ k) (filter (λ e, key e ≠ k) es)
  = filter (λ e, key e ≠ k) es.
Proof.
  rewrite list_filter_filter. apply list_filter_iff. intros e. tauto.
Qed.

(** X4.  A [Get] or a [Delete] of a key is local to that key: every
    other key resolves to the same entry as before, and the other entries
    keep their relative recency order -- an expired entry of another key
    is not purged. *)
Theorem Get_Delete_frame (c c' : InMemoryCache) (k : string) (o : op)
    (now : Z) :
  wf c → o = OpGet k ∨ o = OpDelete k → step c o now = Some c' →
  (∀ k', k' ≠ k → lookup_entry c' k' = lookup_entry c k') ∧
  filter (λ e, key e ≠ k) (entries c')
  = filter (λ e, key e ≠ k) (entries c).
Proof.
  intros Hwf Ho Hstep.
  assert (c' = c
          ∨ ∃ el e, heap c !! el = Some e ∧ el ∈ lruList c ∧ key e = k ∧
                    (c' = touched c el ∨ c' = removed c el e))
    as [->|(el & e & He & Hin & Hk & Hc')].
  { destruct Ho as [-> | ->]; simpl in Hstep.
    - destruct (Get_cases c k now Hwf)
        as [[Hc HG]|(el & e & Hc & He & Hin & Hke & [[Hlt HG]|[Hle HG]])];
        rewrite HG in Hstep; simpl in Hstep; simplify_eq;
        [by left|right; exists el, e; auto..].
    - destruct (Delete_cases c k Hwf)
        as [[Hc HD]|(el & e & Hc & He & Hin & Hke & HD)];
        rewrite HD in Hstep; simpl in Hstep; simplify_eq;
        [by left|right; exists el, e; auto]. }
  { done. }
  destruct Hc' as [-> | ->].
  - split; [done|]. rewrite (entries_touched c el e) by done.
    rewrite Hk, filter_cons_False by tauto. apply filter_key_idemp.
  - split.
    + intros k' Hne. rewrite lookup_entry_removed.
      rewrite decide_False; [done|congruence].
    + rewrite (entries_removed c el e) by done.
      rewrite Hk. apply filter_key_idemp.
Qed.

Lemma Get_Delete_frame_witness :
  let ea := {| key := "a"; value := AInt 1; ttl := 10 |} in
  let eb := {| key := "b"; value := AInt 2; ttl := 3 |} in
  let c := pushed (pushed (NewInMemoryCache 3) eb) ea in
  let c' := touched c 1%nat in
  wf c ∧ step c (OpGet "a") 5 = Some c' ∧
  (∀ k', k' ≠ "a"%string → lookup_entry c' k' = lookup_entry c k') ∧
  filter (λ e, key e ≠ "a"%string) (entries c')
  = filter (λ e, key e ≠ "a"%string) (entries c).
Proof.
  intros ea eb c c'.
  assert (wf c) as Hwf.
  { apply wf_pushed; [apply wf_one_entry|compute_done]. }
  assert (step c (OpGet "a") 5 = Some c') as Hstep by compute_done.
  split_and!; [done..| |];
    by apply (Get_Delete_frame c c' "a" (OpGet "a") 5 Hwf (or_introl eq_refl)).
Defined.

Lemma filter_all_false {A} (P : A → Prop) `{!∀ x, Decision (P x)}
    (l : list A) :
  (∀ x, x ∈ l → ¬ P x) → filter P l = [].
Proof.
  induction l as [|x l IH]; intros Hl; [done|].
  rewrite filter_cons_False by (apply Hl; by left).
  apply IH. intros y Hy. apply Hl. by right.
Qed.

(** X5.  [Set] evicts only when it must: if the key is already resident,
    or the cache holds fewer than [maxSize] entries, no key is evicted and
    every other key resolves to the same entry as before. *)
Theorem Set_keeps_others (c : InMemoryCache) (k : string) (v : any)
    (d now : Z) :
  wf c →
  is_Some (cache c !! k) ∨ Z.of_nat (size (cache c)) < maxSize c →
  ∃ c', Set_ c k v d now = Some (c', None) ∧
        evicted_keys c c' = [] ∧
        (∀ k', k' ≠ k → lookup_entry c' k' = lookup_entry c k') ∧
        filter (λ e, key e ≠ k) (entries c')
        = filter (λ e, key e ≠ k) (entries c).
Proof.
  intros Hwf Hroom.
  set (e' := {| key := k; value := v; ttl := now + d |}).
  assert (∃ c', Set_ c k v d now = Some (c', None) ∧
                (∀ k', k' ≠ k → lookup_entry c' k' = lookup_entry c k') ∧
                (∀ k', is_Some (cache c !! k') → is_Some (cache c' !! k')) ∧
                filter (λ e, key e ≠ k) (entries c')
                = filter (λ e, key e ≠ k) (entries c))
    as (c' & HS & Hframe & Hkeep & Hord).
  { destruct (Set_cases c k v d now Hwf)
      as [(el & e & Hc & He & Hin & Hk & HS)
         |[(Hc & Hlt & HS)
          |[(Hc & Hle & Hl & HS)
           |(Hc & Hle & l & el & e & Hl & He & Hin & HS)]]].
    - exists (updated c el e'). split_and!; [done| |done|].
      + intros k' Hne. rewrite (lookup_entry_updated c el e) by done.
        by rewrite decide_False.
      + rewrite (entries_updated c el e) by done. simpl.
        rewrite filter_cons_False by (simpl; tauto).
        apply filter_key_idemp.
    - exists (pushed c e'). split_and!; [done| | |].
      + intros k' Hne. rewrite lookup_entry_pushed by done.
        by rewrite decide_False.
      + intros k' Hk'. simpl. destruct (decide (k = k')) as [->|Hne].
        * rewrite lookup_insert_eq. eauto.
        * by rewrite lookup_insert_ne.
      + rewrite entries_pushed by done.
        by rewrite filter_cons_False by (simpl; tauto).
    - destruct Hroom as [[? ?]|?]; [congruence|lia].
    - destruct Hroom as [[? ?]|?]; [congruence|lia]. }
  exists c'. split_and!; [done| |done..].
  unfold evicted_keys. apply filter_all_false.
  intros k' Hk' Hnone. apply elem_of_keys in Hk'; [|done].
  apply Hkeep in Hk' as [? ?]. congruence.
Qed.

Lemma Set_keeps_others_witness :
  let c := pushed (NewInMemoryCache 3)
             {| key := "a"; value := AInt 1; ttl := 10 |} in
  wf c ∧ Z.of_nat (size (cache c)) < maxSize c ∧
  ∃ c', Set_ c "b" (AInt 2) 10 1 = Some (c', None) ∧
        evicted_keys c c' = [] ∧
        (∀ k', k' ≠ "b"%string → lookup_entry c' k' = lookup_entry c k') ∧
        filter (λ e, key e ≠ "b"%string) (entries c')
        = filter (λ e, key e ≠ "b"%string) (entries c).
Proof.
  intros c.
  assert (Z.of_nat (size (cache c)) < maxSize c) as Hroom by compute_done.
  split_and!; [apply wf_one_entry|done|].
  apply Set_keeps_others; [apply wf_one_entry|by right].
Defined.

(** X6.  A hit returns the last value written and only before its expiry:
    after a [Set] of [k] to [v] with duration [d] at [now], and any later
    requests among which none is a [Set] of [k], a [Get] of [k] either
    returns [v] -- and then strictly before [now + d] -- or reports
    not-found. *)
Theorem Get_returns_last_write (c : InMemoryCache) (k : string) (v : any)
    (d now : Z) :
  wf c →
  ∃ c1, Set_ c k v d now = Some (c1, None) ∧
        ∀ ops c2 t,
          Forall (λ p, sets_key k p.1 = false) ops →
          run c1 ops = Some c2 →
          ∃ c3, (Get c2 k t = Some (c3, (v, None)) ∧ t < now + d)
                ∨ Get c2 k t = Some (c3, (ANil, key_not_found)).
Proof.
  intros Hwf.
  destruct (Set_lookup c k v d now Hwf) as (c1 & HS & Hwf1 & Hl).
  exists c1. split; [done|]. intros ops c2 t Hops Hrun.
  pose proof (run_wf c1 c2 ops Hwf1 Hrun) as Hwf2.
  pose proof (run_other_key ops c1 c2 k Hwf1 Hops Hrun) as Hk.
  rewrite Hl in Hk.
  destruct (Get_cases c2 k t Hwf2)
    as [[Hc HG]|(el & e & Hc & He & Hin & Hke & [[Hlt HG]|[Hle HG]])].
  - exists c2. by right.
  - exists (touched c2 el). left.
    assert (lookup_entry c2 k = Some e) as Hl2.
    { unfold lookup_entry. by rewrite Hc. }
    rewrite Hl2 in Hk. destruct Hk as [Hk|Hk]; [|done].
    injection Hk as ->. simpl in *. done.
  - exists (removed c2 el e). by right.
Qed.

Lemma Get_returns_last_write_witness :
  wf (NewInMemoryCache 2) ∧
  ∃ c1, Set_ (NewInMemoryCache 2) "a" (AInt 1) 10 0 = Some (c1, None) ∧
        ∀ ops c2 t,
          Forall (λ p, sets_key "a" p.1 = false) ops →
          run c1 ops = Some c2 →
          ∃ c3, (Get c2 "a" t = Some (c3, (AInt 1, None)) ∧ t < 0 + 10)
                ∨ Get c2 "a" t = Some (c3, (ANil, key_not_found)).
Proof.
  split; [apply wf_New|]. apply Get_returns_last_write, wf_New.
Defined.

(** X7.  Filling without eviction: serving [Set]s of pairwise distinct
    keys, no more of them than the bound, from the new cache keeps every
    one of them; the recency order is the reverse of the insertion
    order. *)
Theorem fill_keeps_all (n : Z) (ps : list put) :
  NoDup (put_key <$> ps) → Z.of_nat (length ps) ≤ n →
  ∃ c, run (NewInMemoryCache n) (put_op <$> ps) = Some c ∧
       entries c = reverse (put_entry <$> ps) ∧
       size (cache c) = length ps ∧
       ∀ p, p ∈ ps → lookup_entry c (put_key p) = Some (put_entry p).
Proof.
  intros Hnd Hfit.
  destruct (run_puts ps (NewInMemoryCache n)) as (c & Hrun & Hwf & _ & Hes).
  { apply wf_New. }
  { done. }
  { intros k _. apply lookup_empty. }
  { simpl. rewrite map_size_empty. lia. }
  unfold entries at 2 in Hes. simpl in Hes. rewrite app_nil_r in Hes.
  exists c. split_and!; [done..| |].
  - rewrite <- (entries_length c Hwf), Hes.
    by rewrite length_reverse, length_fmap.
  - intros p Hp. apply (elem_of_entries c (put_entry p) Hwf).
    rewrite Hes, elem_of_reverse. by apply list_elem_of_fmap_2.
Qed.

Lemma fill_keeps_all_witness :
  let ps := [Put "a" (AInt 1) 10 0; Put "b" (AInt 2) 10 1] in
  NoDup (put_key <$> ps) ∧ Z.of_nat (length ps) ≤ 3 ∧
  ∃ c, run (NewInMemoryCache 3) (put_op <$> ps) = Some c ∧
       entries c = reverse (put_entry <$> ps) ∧
       size (cache c) = length ps ∧
       ∀ p, p ∈ ps → lookup_entry c (put_key p) = Some (put_entry p).
Proof.
  intros ps.
  assert (NoDup (put_key <$> ps)) as Hnd by (subst ps; compute_done).
  assert (Z.of_nat (length ps) ≤ 3) as Hfit by (simpl; lia).
  split_and!; [done..|]. by apply fill_keeps_all.
Defined.

End LRU_More.

(** ** Further facts about the two-tier cache *)

Module Tiered_More.
Import Tiered Tiered_Facts.

Lemma local_Set_Get (c : InMemoryCache) (k : string) (v : any)
    (d now t : Z) :
  InMemoryCache_Get (InMemoryCache_Set c k v d now).1 k t
  = ((InMemoryCache_Set c k v d now).1,
     (if bool_decide (t ≤ now + d) then v else ANil, None)).
Proof.
  unfold InMemoryCache_Get. simpl. rewrite lookup_insert_eq.
  simpl. repeat case_bool_decide; (done || lia).
Qed.

(** X8.  The local tier, write then read: a [Get] of the key just [Set]
    returns the value up to and including the instant [now + d] and nil
    after it, leaves the map as it is (an expired item is not removed),
    and reads of other keys answer as before the [Set]. *)
Theorem InMemoryCache_Set_then_Get (c : InMemoryCache) (k : string)
    (v : any) (d now t : Z) :
  let c1 := (InMemoryCache_Set c k v d now).1 in
  InMemoryCache_Get c1 k t
  = (c1, (if bool_decide (t ≤ now + d) then v else ANil, None)) ∧
  ∀ k', k' ≠ k →
        (InMemoryCache_Get c1 k' t).2 = (InMemoryCache_Get c k' t).2.
Proof.
  intros c1. split; [apply local_Set_Get|].
  intros k' Hne. unfold InMemoryCache_Get. subst c1. simpl.
  rewrite lookup_insert_ne by done.
  destruct (data c !! k') as [item|]; [|done]. by case_bool_decide.
Qed.

Lemma InMemoryCache_Set_then_Get_witness :
  let c1 := (InMemoryCache_Set NewInMemoryCache "a" (AInt 1) 10 0).1 in
  "b"%string ≠ "a"%string ∧
  InMemoryCache_Get c1 "a" 10 = (c1, (AInt 1, None)) ∧
  InMemoryCache_Get c1 "a" 11 = (c1, (ANil, None)) ∧
  (InMemoryCache_Get c1 "b" 5).2 = (InMemoryCache_Get NewInMemoryCache "b" 5).2.
Proof.
  intros c1. assert ("b"%string ≠ "a"%string) as Hne by done.
  split_and!; [done| | |].
  - exact (proj1 (InMemoryCache_Set_then_Get NewInMemoryCache "a" (AInt 1)
                    10 0 10)).
  - exact (proj1 (InMemoryCache_Set_then_Get NewInMemoryCache "a" (AInt 1)
                    10 0 11)).
  - exact (proj2 (InMemoryCache_Set_then_Get NewInMemoryCache "a" (AInt 1)
                    10 0 5) "b" Hne).
Defined.

Section over_any_remote.
Context {R : Type} `{!Cache R} `{!GoLib}.

Lemma UnifiedCache_Set_local (u : UnifiedCache InMemoryCache R)
    (k : string) (v : any) (d now : Z) :
  InMemory (UnifiedCache_Set u k v d now).1
  = (InMemoryCache_Set (InMemory u) k v d now).1.
Proof.
  unfold UnifiedCache_Set. simpl.
  by destruct (Set_ (Redis u) k (AStr (Sprintf_v v)) d now).
Qed.

Lemma UnifiedCache_Set_Get (u : UnifiedCache InMemoryCache R)
    (k : string) (v : any) (d now t : Z) :
  v ≠ ANil → t ≤ now + d →
  UnifiedCache_Get (UnifiedCache_Set u k v d now).1 k t
  = ((UnifiedCache_Set u k v d now).1, (v, None)).
Proof.
  intros Hv Ht.
  pose proof (UnifiedCache_Set_local u k v d now) as Hloc.
  set (u1 := (UnifiedCache_Set u k v d now).1) in *.
  rewrite (UnifiedCache_Get_local u1 k t (InMemory u1) v).
  - by destruct u1.
  - simpl. rewrite Hloc, local_Set_Get.
    by rewrite bool_decide_eq_true_2.
  - done.
Qed.

(** X9.  Read your write through the composition, over any remote tier:
    after a composed [Set] of a non-nil value -- whether or not the remote
    write succeeded -- a composed [Get] of the key up to the instant
    [now + d] returns that value from the local tier and leaves both
    tiers as the [Set] left them.  A failed [Set] has therefore still
    written the local tier. *)
Theorem UnifiedCache_Set_then_Get (u : UnifiedCache InMemoryCache R)
    (k : string) (v : any) (d now t : Z) :
  v ≠ ANil → t ≤ now + d →
  ∃ u1 err,
    UnifiedCache_Set u k v d now = (u1, err) ∧
    Redis u1 = (Set_ (Redis u) k (AStr (Sprintf_v v)) d now).1 ∧
    err = (Set_ (Redis u) k (AStr (Sprintf_v v)) d now).2 ∧
    UnifiedCache_Get u1 k t = (u1, (v, None)).
Proof.
  intros Hv Ht.
  pose proof (UnifiedCache_Set_Get u k v d now t Hv Ht) as HG.
  destruct (UnifiedCache_Set u k v d now) as [u1 err] eqn:HS.
  exists u1, err. split_and!; [done| | |done].
  - unfold UnifiedCache_Set in HS. simpl in HS.
    destruct (Set_ (Redis u) k (AStr (Sprintf_v v)) d now).
    by simplify_eq.
  - unfold UnifiedCache_Set in HS. simpl in HS.
    destruct (Set_ (Redis u) k (AStr (Sprintf_v v)) d now).
    by simplify_eq.
Qed.
End over_any_remote.

Lemma UnifiedCache_Set_then_Get_witness :
  let lib := sample_lib in
  let u := NewUnifiedCache (Recorder ∅ [] true) in
  AInt 7 ≠ ANil ∧ 10 ≤ 0 + 10 ∧
  ∃ u1 err,
    UnifiedCache_Set u "k" (AInt 7) 10 0 = (u1, err) ∧
    err = refused ∧
    UnifiedCache_Get u1 "k" 10 = (u1, (AInt 7, None)).
Proof.
  intros lib u.
  assert (AInt 7 ≠ ANil) as Hv by done.
  assert (10 ≤ 0 + 10) as Ht by lia.
  split_and!; [done..|].
  destruct (UnifiedCache_Set_then_Get u "k" (AInt 7) 10 0 10 Hv Ht)
    as (u1 & err & HS & _ & Herr & HG).
  exists u1, err. split_and!; [done| |done].
  rewrite Herr. compute_done.
Defined.

Section over_redis.
Context {C : Type} `{!RedisClient C} `{!GoLib}.

Lemma UnifiedCache_Get_from_client
    (u : UnifiedCache InMemoryCache (RedisCache C)) (k : string) (now : Z) :
  (data (InMemory u) !! k = None
   ∨ ∃ item, data (InMemory u) !! k = Some item ∧
             (TTL item < now ∨ Value item = ANil)) →
  ∃ cl val err,
    client_Get (client (Redis u)) k = (cl, (val, err)) ∧
    UnifiedCache_Get u k now
    = (Unified (InMemory u) (Redis_ cl),
       match err with
       | Some RedisNilErr => (ANil, None)
       | Some e => (ANil, Some e)
       | None =>
           (match Atoi val with Some n => AInt n | None => AStr val end,
            None)
       end).
Proof.
  intros Hmiss.
  destruct (UnifiedCache_Get_remote u k now (InMemory u) ANil None)
    as (r & raw & err' & HR & Hst & Hres).
  { by apply InMemoryCache_Get_miss. }
  { by left. }
  simpl in HR. unfold RedisCache_Get in HR.
  destruct (client_Get (client (Redis u)) k) as [cl [val err]] eqn:HC.
  exists cl, val, err. split; [done|].
  destruct (UnifiedCache_Get u k now) as [u' res]. simpl in *. subst u' res.
  destruct err as [[]|]; simplify_eq; [done..|].
  destruct (Atoi val) as [n|] eqn:HA; simplify_eq; [done|].
  by rewrite HA.
Qed.

(** X10.  What a composed [Get] answers once the local tier has missed
    (key absent, expired or nil): it asks the client once and keeps the
    local map.  If the client says [redis.Nil] -- the key is in neither
    tier -- the answer is a nil value with a nil error, not an error; any
    other client error is returned with a nil value; a string the client
    returns comes back as an integer when [Atoi] parses it and as that
    string otherwise, so no string that [Atoi] parses is ever returned
    from the remote tier. *)
Theorem remote_read_outcomes
    (u : UnifiedCache InMemoryCache (RedisCache C)) (k : string) (now : Z) :
  (data (InMemory u) !! k = None
   ∨ ∃ item, data (InMemory u) !! k = Some item ∧
             (TTL item < now ∨ Value item = ANil)) →
  ∃ cl val err,
    client_Get (client (Redis u)) k = (cl, (val, err)) ∧
    UnifiedCache_Get u k now
    = (Unified (InMemory u) (Redis_ cl),
       match err with
       | Some RedisNilErr => (ANil, None)
       | Some e => (ANil, Some e)
       | None =>
           (match Atoi val with Some n => AInt n | None => AStr val end,
            None)
       end) ∧
    ∀ s, (UnifiedCache_Get u k now).2.1 = AStr s → Atoi s = None.
Proof.
  intros Hmiss.
  destruct (UnifiedCache_Get_from_client u k now Hmiss)
    as (cl & val & err & HC & HG).
  exists cl, val, err. split_and!; [done..|].
  intros s. rewrite HG. simpl.
  destruct err as [[]|]; simpl; [done..|].
  destruct (Atoi val) eqn:HA; simpl; [done|]. by intros [= <-].
Qed.

Lemma UnifiedCache_Delete_eq
    (u : UnifiedCache InMemoryCache (RedisCache C)) (k : string) :
  UnifiedCache_Delete u k
  = (Unified {| data := delete k (data (InMemory u)) |}
       (Redis_ (client_Del (client (Redis u)) k).1),
     (client_Del (client (Redis u)) k).2).
Proof.
  unfold UnifiedCache_Delete. simpl. unfold RedisCache_Delete.
  by destruct (client_Del (client (Redis u)) k).
Qed.

(** X11.  A composed [Delete] always removes the key from the local map
    and always sends one [Del] to the client, whose error it returns --
    the local tier reports no error even when the key was absent.  Other
    keys of the local map are untouched, and afterwards a composed [Get]
    of the key goes to the client: if the client's [Del] failed, the key
    can still be served from the remote tier. *)
Theorem UnifiedCache_Delete_spec
    (u : UnifiedCache InMemoryCache (RedisCache C)) (k : string) :
  ∃ u1 cl err,
    client_Del (client (Redis u)) k = (cl, err) ∧
    UnifiedCache_Delete u k = (u1, err) ∧
    Redis u1 = Redis_ cl ∧
    data (InMemory u1) !! k = None ∧
    (∀ k', k' ≠ k → data (InMemory u1) !! k' = data (InMemory u) !! k') ∧
    ∀ t, ∃ cl' val err',
      client_Get cl k = (cl', (val, err')) ∧
      (UnifiedCache_Get u1 k t).1 = Unified (InMemory u1) (Redis_ cl').
Proof.
  pose proof (UnifiedCache_Delete_eq u k) as HD.
  destruct (client_Del (client (Redis u)) k) as [cl err] eqn:HC.
  simpl in HD.
  exists (Unified {| data := delete k (data (InMemory u)) |} (Redis_ cl)),
         cl, err.
  split_and!; [done..| | |]; simpl.
  - apply lookup_delete_eq.
  - intros k' Hne. by apply lookup_delete_ne.
  - intros t.
    destruct (UnifiedCache_Get_from_client
                (Unified {| data := delete k (data (InMemory u)) |}
                   (Redis_ cl)) k t)
      as (cl' & val & err' & HG & Hres).
    { left. simpl. apply lookup_delete_eq. }
    exists cl', val, err'. split; [done|]. by rewrite Hres.
Qed.
End over_redis.

Lemma UnifiedCache_Delete_spec_witness :
  let lib := sample_lib in
  let u := (UnifiedCache_Set (NewUnifiedCache (Recorder ∅ [] false))
              "k" (AInt 7) 10 0).1 in
  "zz"%string ≠ "k"%string ∧
  ∃ u1 cl err,
    client_Del (client (Redis u)) "k" = (cl, err) ∧
    UnifiedCache_Delete u "k" = (u1, err) ∧
    data (InMemory u1) !! "k" = None ∧
    data (InMemory u1) !! "zz" = data (InMemory u) !! "zz".
Proof.
  intros lib u. assert ("zz"%string ≠ "k"%string) as Hne by done.
  split; [done|].
  destruct (UnifiedCache_Delete_spec u "k")
    as (u1 & cl & err & HC & HD & _ & Hk & Hframe & _).
  exists u1, cl, err. split_and!; [done..|]. by apply Hframe.
Defined.

Lemma remote_read_outcomes_witness :
  let lib := sample_lib in
  let u := NewUnifiedCache (Recorder ∅ [] false) in
  data (InMemory u) !! "k" = None ∧
  UnifiedCache_Get u "k" 0
  = (Unified (InMemory u) (Redis_ (Recorder ∅ [CmdGet "k"] false)),
     (ANil, None)).
Proof.
  intros lib u.
  assert (data (InMemory u) !! "k" = None) as Hk by compute_done.
  split; [done|].
  destruct (remote_read_outcomes u "k" 0 (or_introl Hk))
    as (cl & val & err & HC & HG & _).
  rewrite HG. vm_compute in HC. by injection HC as <- <- <-.
Defined.
End Tiered_More.

(** ** Facts about the handlers of [inmemory_cache_restapi.go] *)

Module LRU_HTTP_Facts.
Import HTTP LRU LRU_Facts LRU_More LRU_HTTP.

Section handlers.
Context `{!HttpLib}.

(** A request either leaves the cache alone or amounts to one operation
    of the engine. *)
Lemma serve_step (c : InMemoryCache) (r : Request) (now : Z) :
  wf c →
  ∃ c' resp, serve c r now = Some (c', resp) ∧ sent (status resp) ∧
             (c' = c ∨ ∃ o, step c o now = Some c').
Proof.
  intros Hwf. unfold serve, sent.
  destruct (decide (Method r = MethodGet)) as [_|_];
    [|destruct (decide (Method r = MethodPost)) as [_|_];
      [|destruct (decide (Method r = MethodDelete)) as [_|_]]].
  - unfold handleGet. simpl. case_decide as Hk.
    { eexists _, _. split_and!; [done| |by left]. simpl. tauto. }
    destruct (Get_total c (key_param r) now Hwf) as (c' & res & HG & _).
    assert (step c (OpGet (key_param r)) now = Some c') as Hs.
    { simpl. by rewrite HG. }
    rewrite HG. simpl. destruct res as [x [e|]]; simpl;
      (eexists _, _; split_and!; [done|simpl; tauto|right; eauto]).
  - unfold handleSet.
    destruct (decode_CacheEntry (Body r)) as [data|].
    2:{ eexists _, _. split_and!; [done|simpl; tauto|by left]. }
    destruct (ParseDuration (TTL data)) as [d|].
    2:{ eexists _, _. split_and!; [done|simpl; tauto|by left]. }
    destruct (Set_total c (Key data) (AInt (Value data)) d now Hwf)
      as (c' & HS & _).
    rewrite HS. simpl. eexists _, _. split_and!; [done|simpl; tauto|].
    right. exists (OpSet (Key data) (AInt (Value data)) d). simpl.
    by rewrite HS.
  - unfold handleDelete. simpl. case_decide as Hk.
    { eexists _, _. split_and!; [done| |by left]. simpl. tauto. }
    destruct (Delete_total c (key_param r) Hwf) as (c' & res & HD & _).
    assert (step c (OpDelete (key_param r)) now = Some c') as Hs.
    { simpl. by rewrite HD. }
    rewrite HD. simpl. destruct res as [e|]; simpl;
      (eexists _, _; split_and!; [done|simpl; tauto|right; eauto]).
  - eexists _, _. split_and!; [done|simpl; tauto|by left].
Qed.

Lemma serve_all_bounded (b : nat) (rs : list (Request * Z))
    (c : InMemoryCache) :
  wf c → (1 ≤ b)%nat → maxSize c ≤ Z.of_nat b →
  (size (cache c) ≤ b)%nat →
  ∃ c' resps, serve_all c rs = Some (c', resps) ∧ wf c' ∧
              (size (cache c') ≤ b)%nat ∧
              length resps = length rs ∧
              Forall (λ resp, sent (status resp)) resps.
Proof.
  revert c. induction rs as [|[r now] rs IH]; intros c Hwf Hb Hmax Hsz.
  - exists c, []. by split_and!.
  - simpl.
    destruct (serve_step c r now Hwf) as (c1 & resp & -> & Hsent & Hst).
    simpl.
    assert (wf c1 ∧ maxSize c1 = maxSize c ∧ (size (cache c1) ≤ b)%nat)
      as (Hwf1 & Hm1 & Hsz1).
    { destruct Hst as [->|[o Hs]]; [done|].
      destruct (step_total c o now Hwf) as (c1' & Hs' & ? & ? & ?).
      rewrite Hs in Hs'. simplify_eq. split_and!; [done..|lia]. }
    destruct (IH c1) as (c' & resps & -> & Hwf' & Hsz' & Hlen & Hall);
      [done|done|lia|done|].
    simpl. exists c', (resp :: resps).
    split_and!; [done..|simpl; lia|by constructor].
Qed.

(** X12.  The server as [main] builds it: whatever requests arrive, each
    is answered -- no handler panics -- with one of the codes 200, 201,
    400, 404, 405, and after them the cache holds at most three
    entries. *)
Theorem server_bounded (rs : list (Request * Z)) :
  ∃ c resps, serve_all main_cache rs = Some (c, resps) ∧
             (size (cache c) ≤ 3)%nat ∧
             length resps = length rs ∧
             Forall (λ resp, sent (status resp)) resps.
Proof.
  destruct (serve_all_bounded 3 rs main_cache)
    as (c & resps & HS & _ & Hsz & Hlen & Hall).
  - apply wf_New.
  - lia.
  - simpl. lia.
  - simpl. rewrite map_size_empty. lia.
  - by exists c, resps.
Qed.

(** X13.  A request that is refused leaves the cache exactly as it was:
    every answer 400 (malformed body, unparsable TTL, empty key) or 405
    (other method), and the 404 of a DELETE.  (The 404 of a GET may have
    removed the expired entry it found.) *)
Theorem refused_request_changes_nothing (c c' : InMemoryCache)
    (r : Request) (now : Z) (resp : Response) :
  serve c r now = Some (c', resp) →
  status resp = StatusBadRequest ∨ status resp = StatusMethodNotAllowed
  ∨ (Method r = MethodDelete ∧ status resp = StatusNotFound) →
  c' = c.
Proof.
  unfold serve. intros Hserve Hst.
  destruct (decide (Method r = MethodGet)) as [HmG|_];
    [|destruct (decide (Method r = MethodPost)) as [HmP|_];
      [|destruct (decide (Method r = MethodDelete)) as [_|_]]].
  - unfold handleGet in Hserve. simpl in Hserve.
    case_decide; [by simplify_eq|].
    destruct (Get c (key_param r) now) as [[c1 [x [e|]]]|];
      simpl in Hserve; simplify_eq; simpl in Hst;
      destruct Hst as [?|[?|[Hm ?]]]; try done;
      rewrite HmG in Hm; done.
  - unfold handleSet in Hserve.
    destruct (decode_CacheEntry (Body r)) as [data|]; [|by simplify_eq].
    destruct (ParseDuration (TTL data)) as [d|]; [|by simplify_eq].
    destruct (Set_ c (Key data) (AInt (Value data)) d now) as [[c1 e]|];
      simpl in Hserve; simplify_eq; simpl in Hst.
    destruct Hst as [?|[?|[Hm ?]]]; done.
  - unfold handleDelete in Hserve. simpl in Hserve.
    case_decide; [by simplify_eq|].
    unfold Delete in Hserve.
    destruct (cache c !! key_param r) as [el|]; simpl in Hserve.
    + destruct (removeElement c el); simpl in Hserve; simplify_eq.
      simpl in Hst. destruct Hst as [?|[?|[_ ?]]]; done.
    + by simplify_eq.
  - by simplify_eq.
Qed.

(** X14.  Round trip through the handlers: on a well-formed cache, a
    POST whose body decodes to a non-empty key, a value and a TTL that
    parses to [d] is answered 201, and a GET of that key strictly before
    [now + d] is then answered 200 with the encoding of that key and
    value, the cache staying as the POST left it. *)
Theorem post_then_get (c : InMemoryCache) (p g : Request)
    (data : CacheEntry) (d now t : Z) :
  wf c →
  Method p = MethodPost → decode_CacheEntry (Body p) = Some data →
  ParseDuration (TTL data) = Some d → Key data ≠ EmptyString →
  Method g = MethodGet → key_param g = Key data → t < now + d →
  ∃ c1 resp,
    serve c p now = Some (c1, resp) ∧ status resp = StatusCreated ∧
    serve c1 g t
    = Some (c1, {| status := StatusOK;
                   written := encode_key_value (Key data)
                                (AInt (Value data)) |}).
Proof.
  intros Hwf Hp Hdec Hdur Hkey Hg Hkp Ht.
  destruct (Set_Get_live c (Key data) (AInt (Value data)) d now t Hwf Ht)
    as (c1 & HS & _ & _ & _ & HG).
  eexists c1, _. split_and!.
  - unfold serve. rewrite Hp. simpl.
    unfold handleSet. rewrite Hdec, Hdur, HS. simpl. reflexivity.
  - done.
  - unfold serve. rewrite decide_True by done.
    unfold handleGet. rewrite Hkp. simpl.
    rewrite decide_False by done. by rewrite HG.
Qed.


(** X16.  On a well-formed cache, a DELETE with a key answers 200 exactly
    when the key was resident and 404 otherwise; either way a GET of that
    key or a second DELETE is then answered 404 and changes nothing. *)
Theorem delete_then_404 (c : InMemoryCache) (q g : Request) (now t : Z) :
  wf c →
  Method q = MethodDelete → key_param q ≠ EmptyString →
  Method g = MethodGet → key_param g = key_param q →
  ∃ c1 resp,
    serve c q now = Some (c1, resp) ∧
    status resp
    = (if decide (is_Some (cache c !! key_param q))
       then StatusOK else StatusNotFound) ∧
    (∃ resp', serve c1 g t = Some (c1, resp') ∧
              status resp' = StatusNotFound) ∧
    (∃ resp', serve c1 q t = Some (c1, resp') ∧
              status resp' = StatusNotFound).
Proof.
  intros Hwf Hq Hk Hg Hkg.
  assert (∃ c1 r, Delete c (key_param q) = Some (c1, r) ∧
                  cache c1 !! key_param q = None ∧
                  (r = None ↔ is_Some (cache c !! key_param q)))
    as (c1 & r & HD & Hc1 & Hr).
  { destruct (Delete_cases c (key_param q) Hwf)
      as [[Hc HD]|(el & e & Hc & He & Hin & Hke & HD)].
    - exists c, key_not_found. split_and!; [done..|].
      rewrite Hc. split; [done|]. by intros [? ?].
    - exists (removed c el e), None. split_and!; [done| |].
      + simpl. rewrite Hke. apply lookup_delete_eq.
      + rewrite Hc. split; eauto. }
  assert (∀ x, serve c1 x t = handleDelete c1 x → key_param x = key_param q →
               ∃ resp', serve c1 x t = Some (c1, resp') ∧
                        status resp' = StatusNotFound) as Hdel.
  { intros x -> Hx. unfold handleDelete. rewrite Hx. simpl.
    rewrite decide_False by done. rewrite Delete_absent by done. simpl.
    eexists. split; reflexivity. }
  assert (∃ resp', serve c1 g t = Some (c1, resp') ∧
                   status resp' = StatusNotFound) as Hget.
  { eexists. unfold serve. rewrite decide_True by done.
    unfold handleGet. rewrite Hkg. simpl. rewrite decide_False by done.
    rewrite Get_absent by done. simpl. split; reflexivity. }
  assert (serve c1 q t = handleDelete c1 q) as Hsq.
  { unfold serve. by rewrite Hq. }
  assert (serve c q now = handleDelete c q) as Hsq0.
  { unfold serve. by rewrite Hq. }
  rewrite Hsq0. unfold handleDelete at 1. simpl.
  rewrite decide_False by done. rewrite HD. simpl.
  destruct r as [e|]; simpl; eexists c1, _;
    (split_and!; [reflexivity| |done|by apply Hdel]); simpl.
  - rewrite decide_False; [done|]. intros Hs. by apply Hr in Hs.
  - rewrite decide_True; [done|]. by apply Hr.
Qed.
End handlers.

Lemma refused_request_changes_nothing_witness :
  let lib := sample_http in
  let r := Req "PUT" "a" "a" in
  let resp := http_Error "Method not allowed" StatusMethodNotAllowed in
  serve main_cache r 0 = Some (main_cache, resp) ∧
  status resp = StatusMethodNotAllowed ∧
  main_cache = main_cache.
Proof.
  intros lib r resp.
  assert (serve main_cache r 0 = Some (main_cache, resp)) as Hs
    by compute_done.
  split_and!; [done..|].
  apply (refused_request_changes_nothing main_cache main_cache r 0 resp Hs).
  right. by left.
Defined.

Lemma post_then_get_witness :
  let lib := sample_http in
  let p := Req "POST" "" "a" in
  let g := Req "GET" "a" "" in
  wf main_cache ∧ decode_CacheEntry (Body p) = Some (Entry_ "a" 1 "10ns") ∧
  ParseDuration "10ns" = Some 10 ∧ 5 < 0 + 10 ∧
  ∃ c1 resp,
    serve main_cache p 0 = Some (c1, resp) ∧ status resp = StatusCreated ∧
    serve c1 g 5
    = Some (c1, {| status := StatusOK;
                   written := encode_key_value "a" (AInt 1) |}).
Proof.
  intros lib p g.
  split_and!; [apply wf_New|done|done|lia|].
  apply (post_then_get main_cache p g (Entry_ "a" 1 "10ns") 10 0 5);
    [apply wf_New|done..|lia].
Defined.


Lemma delete_then_404_witness :
  let lib := sample_http in
  let q := Req "DELETE" "a" "" in
  let g := Req "GET" "a" "" in
  wf main_cache ∧
  ∃ c1 resp,
    serve main_cache q 0 = Some (c1, resp) ∧
    status resp
    = (if decide (is_Some (cache main_cache !! key_param q))
       then StatusOK else StatusNotFound) ∧
    (∃ resp', serve c1 g 1 = Some (c1, resp') ∧
              status resp' = StatusNotFound) ∧
    (∃ resp', serve c1 q 1 = Some (c1, resp') ∧
              status resp' = StatusNotFound).
Proof.
  intros lib q g. split; [apply wf_New|].
  apply (delete_then_404 main_cache q g 0 1); [apply wf_New|done..].
Defined.
End LRU_HTTP_Facts.

(** ** Facts about the handlers of the unified cache program *)

Module Tiered_HTTP_Facts.
Import HTTP Tiered Tiered_Facts Tiered_More Tiered_HTTP.

Section handlers.
Context {C : Type} `{!RedisClient C} `{!GoLib} `{!HttpLib}.

(** X17.  A GET of a key the local tier does not serve answers by what
    the client says: when the client says [redis.Nil] -- the key is in
    neither tier -- the answer is 200 with a nil value, not 404; 404 is
    sent only when the client fails otherwise; a value the client
    returns is sent with 200. *)
Theorem get_of_unknown_key
    (u : UnifiedCache InMemoryCache (RedisCache C)) (r : Request) (now : Z) :
  Method r = MethodGet → key_param r ≠ EmptyString →
  (data (InMemory u) !! key_param r = None
   ∨ ∃ item, data (InMemory u) !! key_param r = Some item ∧
             (TTL item < now ∨ Value item = ANil)) →
  ∃ cl val err,
    client_Get (client (Redis u)) (key_param r) = (cl, (val, err)) ∧
    serve_get u r now
    = (Unified (InMemory u) (Redis_ cl),
       match err with
       | Some RedisNilErr =>
           {| status := StatusOK;
              written := encode_response (key_param r) ANil |}
       | Some e => http_Error (Error e) StatusNotFound
       | None =>
           {| status := StatusOK;
              written :=
                encode_response (key_param r)
                  (match Atoi val with
                   | Some n => AInt n
                   | None => AStr val
                   end) |}
       end).
Proof.
  intros Hm Hk Hmiss.
  destruct (UnifiedCache_Get_from_client u (key_param r) now Hmiss)
    as (cl & val & err & HC & HG).
  exists cl, val, err. split; [done|].
  unfold serve_get. rewrite decide_False by (by rewrite Hm; intros []).
  unfold handleGet. simpl. rewrite decide_False by done. rewrite HG.
  by destruct err as [[]|].
Qed.

(** X18.  A POST whose body decodes, whose TTL parses to [d] and whose
    value is not nil, and whose remote write fails, is answered 500; yet
    its value is in the local tier, and the composed [Get] of its key up
    to the instant [now + d] returns it without the client being asked.
    A GET request for that key in that time is therefore answered 200
    with that value -- unless the key is empty, which [handleSet] accepts
    but [handleGet] refuses with 400.  Either way the GET changes
    neither tier. *)
Theorem failed_post_is_still_served
    (u : UnifiedCache InMemoryCache (RedisCache C)) (p : Request)
    (data : SetData) (d now : Z) (cl : C) (e : error_value) :
  Method p = MethodPost → decode_SetData (Body p) = Some data →
  ParseDuration (data_TTL data) = Some d →
  data_Value data ≠ ANil →
  client_Set (client (Redis u)) (data_Key data)
    (AStr (Sprintf_v (data_Value data))) d = (cl, Some e) →
  ∃ u1,
    serve_set u p now
    = (u1, http_Error (Error e) StatusInternalServerError) ∧
    Redis u1 = Redis_ cl ∧
    Tiered.data (InMemory u1) !! data_Key data
    = Some {| Value := data_Value data; TTL := now + d |} ∧
    ∀ g t,
      Method g = MethodGet → key_param g = data_Key data → t ≤ now + d →
      UnifiedCache_Get u1 (data_Key data) t
      = (u1, (data_Value data, None)) ∧
      serve_get u1 g t
      = (u1,
         if decide (data_Key data = EmptyString)
         then http_Error "Key not provided" StatusBadRequest
         else {| status := StatusOK;
                 written := encode_response (data_Key data)
                              (data_Value data) |}).
Proof.
  intros Hm Hdec Hdur Hv HC.
  pose proof (λ t, UnifiedCache_Set_Get u (data_Key data) (data_Value data)
                     d now t Hv) as HG.
  assert (UnifiedCache_Set u (data_Key data) (data_Value data) d now
          = (Unified (InMemoryCache_Set (InMemory u) (data_Key data)
                        (data_Value data) d now).1 (Redis_ cl), Some e))
    as HS.
  { unfold UnifiedCache_Set. simpl. unfold RedisCache_Set. by rewrite HC. }
  rewrite HS in HG. simpl in HG.
  eexists. split_and!.
  - unfold serve_set. rewrite decide_False by (by rewrite Hm; intros []).
    unfold handleSet. rewrite Hdec, Hdur, HS. reflexivity.
  - done.
  - simpl. apply lookup_insert_eq.
  - intros g t Hg Hkg Ht. split; [by apply HG|].
    unfold serve_get. rewrite decide_False by (by rewrite Hg; intros []).
    unfold handleGet. rewrite Hkg. simpl.
    destruct (decide (data_Key data = EmptyString)) as [Hk|Hk]; [done|].
    by rewrite (HG t Ht).
Qed.

(** X19.  A request the handlers refuse with 400 or 405 changes neither
    tier and does not reach the client. *)
Theorem refused_request_reaches_no_tier
    (u : UnifiedCache InMemoryCache (RedisCache C)) (r : Request) (now : Z) :
  (status (serve_set u r now).2 = StatusBadRequest
   ∨ status (serve_set u r now).2 = StatusMethodNotAllowed →
   (serve_set u r now).1 = u) ∧
  (status (serve_get u r now).2 = StatusBadRequest
   ∨ status (serve_get u r now).2 = StatusMethodNotAllowed →
   (serve_get u r now).1 = u) ∧
  (status (serve_delete u r).2 = StatusBadRequest
   ∨ status (serve_delete u r).2 = StatusMethodNotAllowed →
   (serve_delete u r).1 = u).
Proof.
  split_and!.
  - unfold serve_set. case_decide; [done|]. unfold handleSet.
    destruct (decode_SetData (Body r)) as [data|]; [|done].
    destruct (ParseDuration (data_TTL data)) as [d|]; [|done].
    destruct (UnifiedCache_Set u (data_Key data) (data_Value data) d now)
      as [u1 [e|]]; simpl; intros [?|?]; done.
  - unfold serve_get. case_decide; [done|]. unfold handleGet. simpl.
    case_decide; [done|].
    destruct (UnifiedCache_Get u (key_param r) now) as [u1 [v [e|]]];
      simpl; intros [?|?]; done.
  - unfold serve_delete. case_decide; [done|]. unfold handleDelete. simpl.
    case_decide; [done|].
    destruct (UnifiedCache_Delete u (key_param r)) as [u1 [e|]];
      simpl; intros [?|?]; done.
Qed.
End handlers.

Lemma get_of_unknown_key_witness :
  let lib := sample_lib in
  let http := sample_http in
  let u := NewUnifiedCache (Recorder ∅ [] false) in
  let r := Req "GET" "zz" "" in
  data (InMemory u) !! key_param r = None ∧
  serve_get u r 0
  = (Unified (InMemory u) (Redis_ (Recorder ∅ [CmdGet "zz"] false)),
     {| status := StatusOK; written := encode_response "zz" ANil |}).
Proof.
  intros lib http u r.
  assert (data (InMemory u) !! key_param r = None) as Hk by compute_done.
  split; [done|].
  destruct (get_of_unknown_key u r 0 eq_refl ltac:(done) (or_introl Hk))
    as (cl & val & err & HC & HG).
  rewrite HG. vm_compute in HC. by injection HC as <- <- <-.
Defined.

Lemma failed_post_is_still_served_witness :
  let lib := sample_lib in
  let http := sample_http in
  let u := NewUnifiedCache (Recorder ∅ [] true) in
  let p := Req "POST" "" "k" in
  let g := Req "GET" "k" "" in
  let pe := Req "POST" "" "e" in
  let ge := Req "GET" "" "" in
  decode_SetData (Body p) = Some (SetData_ "k" (AStr "x") "10ns") ∧
  decode_SetData (Body pe) = Some (SetData_ "" (AStr "x") "10ns") ∧
  (∃ u1,
     serve_set u p 0
     = (u1, http_Error "connection refused" StatusInternalServerError) ∧
     serve_get u1 g 10
     = (u1, {| status := StatusOK;
               written := encode_response "k" (AStr "x") |})) ∧
  (∃ u1,
     serve_set u pe 0
     = (u1, http_Error "connection refused" StatusInternalServerError) ∧
     UnifiedCache_Get u1 "" 10 = (u1, (AStr "x", None)) ∧
     serve_get u1 ge 10
     = (u1, http_Error "Key not provided" StatusBadRequest)).
Proof.
  intros lib http u p g pe ge. split_and!; [done..| |].
  - destruct (failed_post_is_still_served u p
                (SetData_ "k" (AStr "x") "10ns")
                10 0 (Recorder ∅ [CmdSet "k" (AStr "x") 10] true)
                (ErrMsg "connection refused"))
      as (u1 & HS & _ & _ & HG); [done..|].
    exists u1. split; [done|].
    destruct (HG g 10) as [_ H2]; [done|done|simpl; lia|]. exact H2.
  - destruct (failed_post_is_still_served u pe
                (SetData_ "" (AStr "x") "10ns")
                10 0 (Recorder ∅ [CmdSet "" (AStr "x") 10] true)
                (ErrMsg "connection refused"))
      as (u1 & HS & _ & _ & HG); [done..|].
    exists u1. split; [done|].
    destruct (HG ge 10) as [H1 H2]; [done|done|simpl; lia|].
    split; [exact H1|exact H2].
Defined.

Lemma refused_request_reaches_no_tier_witness :
  let lib := sample_lib in
  let http := sample_http in
  let u := NewUnifiedCache (Recorder ∅ [] false) in
  let r := Req "GET" "" "bad" in
  status (serve_set u r 0).2 = StatusMethodNotAllowed ∧
  status (serve_get u r 0).2 = StatusBadRequest ∧
  (serve_set u r 0).1 = u ∧ (serve_get u r 0).1 = u.
Proof.
  intros lib http u r.
  assert (status (serve_set u r 0).2 = StatusMethodNotAllowed) as H1
    by compute_done.
  assert (status (serve_get u r 0).2 = StatusBadRequest) as H2
    by compute_done.
  destruct (refused_request_reaches_no_tier u r 0) as (HS & HG & _).
  split_and!; [done..| |].
  - apply HS. by right.
  - apply HG. by left.
Defined.
End Tiered_HTTP_Facts.
